(** * stereo_match: the disparity engine of [main.cpp]

    A shallow embedding of [compute_dispmap] (main.cpp, lines 82-104) and of
    the OpenCV operations it calls, followed by the properties of the
    block-matching loop: which coordinates it visits, what it stores, when
    the region extractions fail.

    C++ integers are mathematical integers ([Z]) with every conversion
    written out: [to_unsigned] for a value that becomes an [unsigned],
    [to_int] for one that becomes an [int], [to_uchar] for the store into an
    8-bit cell. *)

From Stdlib Require Import ZArith List Bool Lia QArith.
From Stdlib Require String.
Import String.StringSyntax.
Delimit Scope string_scope with string.
Import ListNotations.
Local Open Scope Z_scope.

(** ** Machine integers *)

Definition INT_MAX : Z := 2147483647.
Definition INT_MIN : Z := -2147483648.
Definition UINT_MAX : Z := 4294967295.

(** Conversion to [unsigned] (32 bits): reduction modulo 2^32. *)
Definition to_unsigned (z : Z) : Z := z mod 4294967296.

(** Conversion to [int] (32 bits, two's complement). *)
Definition to_int (z : Z) : Z := (z + 2147483648) mod 4294967296 - 2147483648.

(** Conversion to [uchar]: reduction modulo 2^8. *)
Definition to_uchar (z : Z) : Z := z mod 256.

Definition is_int (z : Z) : Prop := INT_MIN <= z <= INT_MAX.
Definition is_unsigned (z : Z) : Prop := 0 <= z <= UINT_MAX.

(** ** Failures

    OpenCV reports a violated [CV_Assert] by throwing [cv::Exception]; the
    engine catches nothing, so the first failure ends the run. *)

Inductive error : Type :=
| CvAssert.

Inductive result (A : Type) : Type :=
| Ok (a : A)
| Err (e : error).
Arguments Ok {A} a.
Arguments Err {A} e.

Definition bind {A B : Type} (r : result A) (k : A -> result B) : result B :=
  match r with
  | Ok a => k a
  | Err e => Err e
  end.

Notation "x <- r ;; k" := (bind r (fun x => k))
  (at level 61, r at next level, right associativity).

(** ** cv::Point, cv::Rect, cv::Mat *)

Record Point : Type := mkPoint { pt_x : Z; pt_y : Z }.

Record Rect : Type := mkRect { rc_x : Z; rc_y : Z; rc_width : Z; rc_height : Z }.

(** [cv::Rect(const Point& org, const Size& sz)]. *)
Definition Rect_size (org : Point) (width height : Z) : Rect :=
  mkRect (pt_x org) (pt_y org) width height.

(** [cv::Rect(const Point& pt1, const Point& pt2)]: the corner is the
    componentwise minimum, the size the difference to the maximum. *)
Definition Rect_pts (pt1 pt2 : Point) : Rect :=
  let x := Z.min (pt_x pt1) (pt_x pt2) in
  let y := Z.min (pt_y pt1) (pt_y pt2) in
  mkRect x y
         (to_int (Z.max (pt_x pt1) (pt_x pt2) - x))
         (to_int (Z.max (pt_y pt1) (pt_y pt2) - y)).

(** A single-channel matrix header: its size and the sample at row [y],
    column [x].  A region of interest is a header on the same samples, so a
    matrix is modelled by what its header lets one read. *)
Record Mat (A : Type) : Type := mkMat { rows : Z; cols : Z; px : Z -> Z -> A }.
Arguments mkMat {A} rows cols px.
Arguments rows {A} m.
Arguments cols {A} m.
Arguments px {A} m y x.

(** The test of [Mat::Mat(const Mat& m, const Rect& roi)]:
    [0 <= roi.x && 0 <= roi.width && roi.x + roi.width <= m.cols &&
     0 <= roi.y && 0 <= roi.height && roi.y + roi.height <= m.rows]. *)
Definition rect_inside {A : Type} (r : Rect) (m : Mat A) : bool :=
  (0 <=? rc_x r) && (0 <=? rc_width r) && (rc_x r + rc_width r <=? cols m) &&
  (0 <=? rc_y r) && (0 <=? rc_height r) && (rc_y r + rc_height r <=? rows m).

(** [m(roi)]: the sub-matrix, or the assertion failure. *)
Definition roi {A : Type} (m : Mat A) (r : Rect) : result (Mat A) :=
  if rect_inside r m
  then Ok (mkMat (rc_height r) (rc_width r)
                 (fun y x => px m (rc_y r + y) (rc_x r + x)))
  else Err CvAssert.

(** [m.at<uchar>(y, x) = v]: release builds of OpenCV do not check the
    indices, so the store is an unconditional update of one cell. *)
Definition Mat_set {A : Type} (m : Mat A) (y x : Z) (v : A) : Mat A :=
  mkMat (rows m) (cols m)
        (fun y' x' => if (y' =? y) && (x' =? x) then v else px m y' x').

(** [seqZ a n] is [a, a+1, ..., a+n-1]. *)
Definition seqZ (a : Z) (n : nat) : list Z :=
  map (fun k => a + Z.of_nat k) (seq 0 n).

(** ** Counted loops

    [for (i = a; i < b; i++) body] with [i] and [b] compared as unsigned
    values and neither assigned in the body; a failing body ends the loop.
    The fuel bounds the number of iterations: [for_lt] passes [b - a], the
    trip count, and more fuel changes nothing ([for_fuel_enough]).  The
    counter stays below [b <= UINT_MAX], so [i + 1] does not wrap. *)

Fixpoint for_fuel {St : Type} (fuel : nat) (i b : Z)
         (body : Z -> St -> result St) (s : St) : result St :=
  match fuel with
  | O => Ok s
  | S fuel' =>
      if i <? b
      then s' <- body i s ;; for_fuel fuel' (i + 1) b body s'
      else Ok s
  end.

Definition for_lt {St : Type} (a b : Z) (body : Z -> St -> result St) (s : St)
  : result St :=
  for_fuel (Z.to_nat (b - a)) a b body s.

(** The same loop body run over a list of counter values, in order, up to
    the first failure. *)
Fixpoint run_over {I St : Type} (body : I -> St -> result St) (l : list I)
         (s : St) : result St :=
  match l with
  | [] => Ok s
  | i :: l' => s' <- body i s ;; run_over body l' s'
  end.

(** ** The engine *)

(** The state of the run: the output grid and, as a ghost field, the
    coordinates [(y, x)] whose cell was stored, oldest first. *)
Record engine_state : Type := mkState {
  dispmap : Mat Z;
  visited : list (Z * Z)
}.

Section Engine.

(** A sample of the [CV_32F] result of [cv::matchTemplate], and the
    comparison [a > b] on such samples.  The engine only passes scores on
    to the selector, which compares them, so their floating-point values
    stay abstract. *)
Variable score : Type.
Variable gt : score -> score -> bool.

(** [cv::matchTemplate(img, templ, result, cv::TM_CCORR_NORMED)]: OpenCV
    code, taken as a parameter.  It fails when OpenCV throws. *)
Variable matchTemplate : Mat Z -> Mat Z -> result (Mat score).

(** *** cv::minMaxLoc, maximum location only *)

(** The positions of a matrix in scan order: row by row, left to right. *)
Definition mat_coords {A : Type} (m : Mat A) : list Point :=
  flat_map (fun y => map (fun x => mkPoint x y) (seqZ 0 (Z.to_nat (cols m))))
           (seqZ 0 (Z.to_nat (rows m))).

(** One comparison of the scan: a position replaces the best one so far
    only when its value is strictly greater. *)
Definition max_step (m : Mat score) (best p : Point) : Point :=
  if gt (px m (pt_y p) (pt_x p)) (px m (pt_y best) (pt_x best))
  then p else best.

(** Modelled from the spec: [cv::minMaxLoc] is OpenCV code, not a file of
    the repository.  The selector returns the position of the maximum
    score, the first one in scan order when several positions attain it:
    the scan starts from the first position and moves on only to a
    strictly greater score.  On a matrix without elements OpenCV reports
    the position (-1, -1). *)
Definition minMaxLoc (m : Mat score) : Point :=
  match mat_coords m with
  | [] => mkPoint (-1) (-1)
  | p :: ps => fold_left (max_step m) ps p
  end.

(** *** compute_dispmap *)

Section Invocation.

Variables limg rimg : Mat Z.
Variables numdisp mindisp blocksize : Z.
(** What the freshly allocated output buffer happens to hold. *)
Variable garbage : Z -> Z -> Z.

(** [unsigned w = blocksize / 2] (line 86). *)
Definition w : Z := to_unsigned (Z.quot blocksize 2).

(** [int maxdisp = numdisp + mindisp] (line 87): an unsigned sum,
    converted to [int]. *)
Definition maxdisp : Z := to_int (to_unsigned (numdisp + mindisp)).

(** [cv::Rect block{cv::Point(x - w, y - w), cv::Size(blocksize, blocksize)}]
    (line 89). *)
Definition block (x y : Z) : Rect :=
  Rect_size (mkPoint (to_int (to_unsigned (x - w)))
                     (to_int (to_unsigned (y - w))))
            blocksize blocksize.

(** [cv::Rect slice{cv::Point(x - w - maxdisp, y - w),
                    cv::Point(x + w + 1 - mindisp, y + w + 1)}]
    (lines 92-93). *)
Definition slice (x y : Z) : Rect :=
  Rect_pts (mkPoint (to_int (to_unsigned (x - w - maxdisp)))
                    (to_int (to_unsigned (y - w))))
           (mkPoint (to_int (to_unsigned (x + w + 1 - mindisp)))
                    (to_int (to_unsigned (y + w + 1)))).

(** Lines 89-97: the block of the left image, the strip of the right
    image and their correlation scores. *)
Definition nccs (x y : Z) : result (Mat score) :=
  feature <- roi limg (block x y) ;;
  img <- roi rimg (slice x y) ;;
  matchTemplate img feature.

(** Lines 98-99: [max.x] after [cv::minMaxLoc]. *)
Definition best_index (x y : Z) : result Z :=
  scores <- nccs x y ;;
  Ok (pt_x (minMaxLoc scores)).

(** The body of the inner loop for the unsigned [y] and the int [x];
    line 100 stores [max.x] as a [uchar] at row [y], column [x]. *)
Definition pixel (y x : Z) (st : engine_state) : result engine_state :=
  k <- best_index x y ;;
  Ok (mkState (Mat_set (dispmap st) (to_int y) x (to_uchar k))
              (visited st ++ [(to_int y, x)])).

(** The inner loop (lines 87-88).  [x] is an [int] compared with an
    unsigned bound, hence as [to_unsigned x]; the loop counter below is
    that unsigned image and the body reads it back as an [int]. *)
Definition row (y : Z) (st : engine_state) : result engine_state :=
  for_lt (to_unsigned (to_int (to_unsigned (maxdisp + w))))
         (to_unsigned (cols limg + mindisp - w - 1))
         (fun c => pixel y (to_int c)) st.

(** [cv::Mat dispmap(limg.rows, limg.cols, CV_8UC1)] (line 85). *)
Definition alloc : Mat Z := mkMat (rows limg) (cols limg) garbage.

(** Lines 85-103. *)
Definition compute_dispmap : result engine_state :=
  for_lt w (to_unsigned (rows limg - w - 1)) row (mkState alloc []).

End Invocation.

End Engine.

Arguments max_step {score} gt m best p.
Arguments minMaxLoc {score} gt m.
Arguments nccs {score} matchTemplate limg rimg numdisp mindisp blocksize x y.
Arguments best_index {score} gt matchTemplate limg rimg numdisp mindisp
  blocksize x y.
Arguments pixel {score} gt matchTemplate limg rimg numdisp mindisp blocksize
  y x st.
Arguments row {score} gt matchTemplate limg rimg numdisp mindisp blocksize y st.
Arguments compute_dispmap {score} gt matchTemplate limg rimg numdisp mindisp
  blocksize garbage.

(** ** An exact scorer

    An instance of the engine's parameters on which the engine can be run:
    scores are rationals, computed without rounding. *)
Module Exact.

(** The sum of [f i j] over [0 <= i < h], [0 <= j < wd]. *)
Definition sum_over (h wd : Z) (f : Z -> Z -> Z) : Z :=
  fold_left Z.add
    (flat_map (fun i => map (f i) (seqZ 0 (Z.to_nat wd)))
              (seqZ 0 (Z.to_nat h)))
    0.

(** Modelled from the spec: the score of [cv::TM_CCORR_NORMED] is computed
    by OpenCV, not by a file of the repository.  Section 4.4 defines it as
    (sum a*b) / sqrt (sum a^2 * sum b^2) over the template and the window
    of the image at offset [(x, y)], and as 0 when either is uniformly
    zero.  The model keeps its square, a rational; samples are not
    negative, so the squares compare as the scores do. *)
Definition ccorr_normed_sq (img templ : Mat Z) (x y : Z) : Q :=
  let h := rows templ in
  let wd := cols templ in
  let num :=
    sum_over h wd (fun i j => px img (y + i) (x + j) * px templ i j) in
  let wnd2 :=
    sum_over h wd (fun i j => px img (y + i) (x + j) * px img (y + i) (x + j)) in
  let tpl2 := sum_over h wd (fun i j => px templ i j * px templ i j) in
  if wnd2 * tpl2 <=? 0 then 0%Q
  else Qmake (num * num) (Z.to_pos (wnd2 * tpl2)).

(** Modelled from the spec: [cv::matchTemplate] is OpenCV code, not a file
    of the repository.  An image W x H and a template w x h give
    (W - w + 1) x (H - h + 1) scores, one per offset of the template in the
    image; the template must be non-empty and not larger than the image. *)
Definition matchTemplate (img templ : Mat Z) : result (Mat Q) :=
  if (1 <=? rows templ) && (rows templ <=? rows img) &&
     (1 <=? cols templ) && (cols templ <=? cols img)
  then Ok (mkMat (rows img - rows templ + 1) (cols img - cols templ + 1)
                 (fun y x => ccorr_normed_sq img templ x y))
  else Err CvAssert.

Definition gt (a b : Q) : bool := negb (Qle_bool a b).

End Exact.

(** ** The specification's vocabulary *)

(** Section 4.1: the eligible coordinates for half-width [hw] and the
    disparity bounds [maxd] and [mind] in a grid of [nrows] by [ncols]. *)
Definition eligible (nrows ncols hw maxd mind : Z) (y x : Z) : Prop :=
  hw <= y <= nrows - hw - 2 /\ maxd + hw <= x <= ncols + mind - hw - 2.

(** [lo, lo+1, ..., hi], empty when [hi < lo]. *)
Definition interval (lo hi : Z) : list Z := seqZ lo (Z.to_nat (hi - lo + 1)).

(** The eligible coordinates [(y, x)] in row-major order. *)
Definition eligible_coords (nrows ncols hw maxd mind : Z) : list (Z * Z) :=
  flat_map (fun y => map (pair y) (interval (maxd + hw) (ncols + mind - hw - 2)))
           (interval hw (nrows - hw - 2)).

(** The arguments are values of the parameter types of [compute_dispmap],
    the block size is positive and odd (section 3), and the sum
    [numdisp + mindisp] fits the [int] that holds [maxdisp]. *)
Definition params_ok (numdisp mindisp blocksize : Z) : Prop :=
  is_unsigned numdisp /\ is_int mindisp /\
  1 <= blocksize <= INT_MAX /\ Z.odd blocksize = true /\
  numdisp + mindisp <= INT_MAX.

(** A grid as the image loader delivers it: [int] dimensions, not negative. *)
Definition grid_ok {A : Type} (m : Mat A) : Prop :=
  0 <= rows m <= INT_MAX /\ 0 <= cols m <= INT_MAX.

(** ** The counters of the two loops *)

(** The values the unsigned [y] of line 86 takes. *)
Definition row_counters (limg : Mat Z) (blocksize : Z) : list Z :=
  seqZ (w blocksize)
       (Z.to_nat (to_unsigned (rows limg - w blocksize - 1) - w blocksize)).

(** The values the unsigned image of [x] (lines 87-88) takes. *)
Definition col_counters (limg : Mat Z) (numdisp mindisp blocksize : Z)
  : list Z :=
  seqZ (to_unsigned (to_int (to_unsigned (maxdisp numdisp mindisp
                                          + w blocksize))))
       (Z.to_nat (to_unsigned (cols limg + mindisp - w blocksize - 1)
                  - to_unsigned (to_int (to_unsigned (maxdisp numdisp mindisp
                                                      + w blocksize))))).

(** The pairs [(y, c)] of counters in the order the nested loops reach them. *)
Definition loop_counters (limg : Mat Z) (numdisp mindisp blocksize : Z)
  : list (Z * Z) :=
  flat_map (fun y => map (pair y) (col_counters limg numdisp mindisp blocksize))
           (row_counters limg blocksize).

(** The cell a pair of counters addresses: both are read as [int]. *)
Definition cell (p : Z * Z) : Z * Z := (to_int (fst p), to_int (snd p)).

(** The documented size of the result of [cv::matchTemplate]: an image
    W x H and a template w x h that is not empty and not larger than the
    image give (W - w + 1) x (H - h + 1) scores. *)
Definition matchTemplate_sized {score : Type}
           (matchTemplate : Mat Z -> Mat Z -> result (Mat score)) : Prop :=
  forall img templ,
    1 <= rows templ <= rows img -> 1 <= cols templ <= cols img ->
    exists r, matchTemplate img templ = Ok r /\
              rows r = rows img - rows templ + 1 /\
              cols r = cols img - cols templ + 1.

(** The invocations on which no conversion of the loop bounds wraps and
    the block stays inside the left grid: two grids of one size, well-typed
    parameters, [0 <= maxdisp], [mindisp <= 1], and a half-width below
    [rows] and below [cols + mindisp]. *)
Definition engine_regime (limg rimg : Mat Z) (numdisp mindisp blocksize : Z)
  : Prop :=
  grid_ok limg /\ rows rimg = rows limg /\ cols rimg = cols limg /\
  params_ok numdisp mindisp blocksize /\
  0 <= numdisp + mindisp /\ mindisp <= 1 /\
  w blocksize < rows limg /\ w blocksize < cols limg + mindisp.

(** The comparison [>] of scores that are numbers: irreflexive, transitive,
    and with a transitive complement [<=]. *)
Definition gt_order {score : Type} (gt : score -> score -> bool) : Prop :=
  (forall a, gt a a = false) /\
  (forall a b c, gt a b = true -> gt b c = true -> gt a c = true) /\
  (forall a b c, gt a b = false -> gt b c = false -> gt a c = false).

(** ** Two sentences of the specification, word for word

    Section 4.1 as it reads, with [w = blocksize / 2] and
    [maxdisp = numdisp + mindisp] in the integers and no side condition:
    the run ends normally, has gone over exactly the eligible coordinates in
    row-major order and has written the selected index itself into each
    cell. *)
Definition visits_as_specified {score : Type} (gt : score -> score -> bool)
           (matchTemplate : Mat Z -> Mat Z -> result (Mat score))
           (limg rimg : Mat Z) (numdisp mindisp blocksize : Z)
           (garbage : Z -> Z -> Z) : Prop :=
  exists st,
    compute_dispmap gt matchTemplate limg rimg numdisp mindisp blocksize garbage
    = Ok st /\
    visited st = eligible_coords (rows limg) (cols limg) (blocksize / 2)
                                 (numdisp + mindisp) mindisp /\
    forall y x,
      eligible (rows limg) (cols limg) (blocksize / 2) (numdisp + mindisp)
               mindisp y x ->
      exists scores,
        nccs matchTemplate limg rimg numdisp mindisp blocksize x y = Ok scores /\
        px (dispmap st) y x = pt_x (minMaxLoc gt scores).

(** Section 8 as it reads: when the eligible range is empty, which the
    sentence says is the case when [2*(numdisp+blocksize) >= cols] or
    [blocksize >= rows], the run ends normally without a written cell. *)
Definition no_writes_as_specified {score : Type} (gt : score -> score -> bool)
           (matchTemplate : Mat Z -> Mat Z -> result (Mat score))
           (limg rimg : Mat Z) (numdisp mindisp blocksize : Z)
           (garbage : Z -> Z -> Z) : Prop :=
  ((forall y x, ~ eligible (rows limg) (cols limg) (blocksize / 2)
                           (numdisp + mindisp) mindisp y x) \/
   2 * (numdisp + blocksize) >= cols limg \/
   blocksize >= rows limg) ->
  exists st,
    compute_dispmap gt matchTemplate limg rimg numdisp mindisp blocksize garbage
    = Ok st /\
    visited st = [] /\
    forall y x, px (dispmap st) y x = garbage y x.

(** ** Concrete grids *)

(** A grid of one value. *)
Definition flat (nrows ncols v : Z) : Mat Z := mkMat nrows ncols (fun _ _ => v).

(** A grid with some texture. *)
Definition textured (nrows ncols : Z) : Mat Z :=
  mkMat nrows ncols (fun y x => (7 * x + 3 * y * y + x * y) mod 13 + 1).

(** Two rows of 258 samples, all zero but column 256. *)
Definition spike : Mat Z :=
  mkMat 2 258 (fun _ x => if x =? 256 then 9 else 0).

(** The row 3, 7, 7, 5: the maximum 7 is attained at columns 1 and 2. *)
Definition tied_row : Mat Z :=
  mkMat 1 4 (fun _ x => nth (Z.to_nat x) [3; 7; 7; 5] 0).

(** A buffer content that no store of the examples produces. *)
Definition stale : Z -> Z -> Z := fun _ _ => 170.

(** ** A wider regime

    What the loop bounds and the two extractions need, and no more: the
    block size may be even, and the right grid may be larger than the left
    one, or smaller by one row and one column. *)
Definition wide_regime (limg rimg : Mat Z) (numdisp mindisp blocksize : Z)
  : Prop :=
  grid_ok limg /\
  rows limg - 1 <= rows rimg /\ cols limg - 1 <= cols rimg /\
  is_unsigned numdisp /\ is_int mindisp /\ 1 <= blocksize <= INT_MAX /\
  0 <= numdisp + mindisp <= INT_MAX /\ mindisp <= 1 /\
  w blocksize < rows limg /\ w blocksize < cols limg + mindisp.

(** ** main (lines 115-139)

    The command line parser, the image reader and the display are library
    code and parameters of the model; what is modelled is how [main] and
    [load_imgs] pass values between them and turn failures into exit
    codes. *)
Module Main.

Definition EXIT_SUCCESS : Z := 0.
Definition EXIT_FAILURE : Z := 1.

(** [struct program_options_t] (lines 31-35); [numdisp] and [blocksize]
    are [unsigned]. *)
Record program_options_t : Type := mkOptions {
  leftimg : String.string;
  rightimg : String.string;
  mindisp : Z;
  numdisp : Z;
  blocksize : Z
}.

(** How [parse_program_options] ends: with an exception of the parser
    ([po::error]: an unknown option, a missing required path), with an
    empty optional after [--help], or with the options. *)
Inductive parse_result : Type :=
| ParseThrows
| Help
| Parsed (opts : program_options_t).

Section Program.

Variable score : Type.
Variable gt : score -> score -> bool.
Variable matchTemplate : Mat Z -> Mat Z -> result (Mat score).

(** [parse_program_options(argc, argv)] on the arguments of the process. *)
Variable parse_program_options : list String.string -> parse_result.

(** [cv::imread(path, cv::IMREAD_GRAYSCALE)]: the decoded image, or a
    matrix without rows and columns when the file cannot be read. *)
Variable imread : String.string -> Mat Z.

(** [show_dispmap] (lines 106-113): OpenCV calls only; it returns or
    throws. *)
Variable show_dispmap : Mat Z -> result unit.

(** What the output buffer of [compute_dispmap] happens to hold. *)
Variable garbage : Z -> Z -> Z.

(** [load_imgs] (lines 77-80). *)
Definition load_imgs (left right : String.string) : Mat Z * Mat Z :=
  (imread left, imread right).

(** [main]: every exception ends in one of the three handlers, each of
    which returns [EXIT_FAILURE].  The [unsigned] block size of the
    options becomes the [int] parameter of [compute_dispmap]. *)
Definition main (argv : list String.string) : Z :=
  match parse_program_options argv with
  | ParseThrows => EXIT_FAILURE
  | Help => EXIT_SUCCESS
  | Parsed opts =>
      let stereoimgs := load_imgs (leftimg opts) (rightimg opts) in
      match compute_dispmap gt matchTemplate (fst stereoimgs) (snd stereoimgs)
                            (numdisp opts) (mindisp opts)
                            (to_int (blocksize opts)) garbage with
      | Err _ => EXIT_FAILURE
      | Ok st =>
          match show_dispmap (dispmap st) with
          | Err _ => EXIT_FAILURE
          | Ok _ => EXIT_SUCCESS
          end
      end
  end.

End Program.

End Main.

(** ** Sample runs of the program *)

(** The defaults of the options (lines 42-47) and two paths. *)
Definition default_options : Main.program_options_t :=
  Main.mkOptions "left.png"%string "right.png"%string 0 64 21.

(** Options that keep the examples small. *)
Definition small_options : Main.program_options_t :=
  Main.mkOptions "left.png"%string "right.png"%string 0 2 3.

(** A command line that parses to the given options. *)
Definition parsed_as (opts : Main.program_options_t)
  : list String.string -> Main.parse_result :=
  fun _ => Main.Parsed opts.

(** A file system with one readable image: every other path gives the
    matrix without rows and columns. *)
Definition only_file (path : String.string) (img : Mat Z)
  : String.string -> Mat Z :=
  fun p => if String.eqb p path then img else mkMat 0 0 (fun _ _ => 0).

(** A file system on which every path gives the same image. *)
Definition any_file (img : Mat Z) : String.string -> Mat Z := fun _ => img.

(** A display that fails. *)
Definition no_display : Mat Z -> result unit := fun _ => Err CvAssert.

(** ** Machine integers: lemmas *)

Lemma to_unsigned_spec (z : Z) :
  exists k,
    to_unsigned z = z + k * 4294967296 /\ 0 <= to_unsigned z <= UINT_MAX.
Proof.
  unfold to_unsigned, UINT_MAX. exists (- (z / 4294967296)).
  pose proof (Z.div_mod z 4294967296 ltac:(lia)).
  pose proof (Z.mod_pos_bound z 4294967296 ltac:(lia)). lia.
Qed.

Lemma to_int_spec (z : Z) :
  exists k, to_int z = z + k * 4294967296 /\ INT_MIN <= to_int z <= INT_MAX.
Proof.
  unfold to_int, INT_MIN, INT_MAX. exists (- ((z + 2147483648) / 4294967296)).
  pose proof (Z.div_mod (z + 2147483648) 4294967296 ltac:(lia)).
  pose proof (Z.mod_pos_bound (z + 2147483648) 4294967296 ltac:(lia)). lia.
Qed.

Lemma to_uchar_spec (z : Z) :
  exists k, to_uchar z = z + k * 256 /\ 0 <= to_uchar z <= 255.
Proof.
  unfold to_uchar. exists (- (z / 256)).
  pose proof (Z.div_mod z 256 ltac:(lia)).
  pose proof (Z.mod_pos_bound z 256 ltac:(lia)). lia.
Qed.

(** Replaces every conversion in the goal and the context by a fresh
    integer with its defining facts, so that [lia] can finish. *)
Ltac wrap_term t spec :=
  let k := fresh "k" in
  let E := fresh "E" in
  let R := fresh "R" in
  let v := fresh "v" in
  let Hv := fresh "Hv" in
  destruct spec as [k [E R]];
  remember t as v eqn:Hv in *; clear Hv.

Ltac wrap :=
  repeat match goal with
    | |- context [to_int ?z] => wrap_term (to_int z) (to_int_spec z)
    | |- context [to_unsigned ?z] =>
        wrap_term (to_unsigned z) (to_unsigned_spec z)
    | |- context [to_uchar ?z] => wrap_term (to_uchar z) (to_uchar_spec z)
    | H : context [to_int ?z] |- _ => wrap_term (to_int z) (to_int_spec z)
    | H : context [to_unsigned ?z] |- _ =>
        wrap_term (to_unsigned z) (to_unsigned_spec z)
    | H : context [to_uchar ?z] |- _ =>
        wrap_term (to_uchar z) (to_uchar_spec z)
    end;
  unfold is_int, is_unsigned in *; unfold INT_MIN, INT_MAX, UINT_MAX in *.

Lemma to_unsigned_id (z : Z) : 0 <= z <= UINT_MAX -> to_unsigned z = z.
Proof. intros. wrap. lia. Qed.

Lemma to_int_id (z : Z) : INT_MIN <= z <= INT_MAX -> to_int z = z.
Proof. intros. wrap. lia. Qed.


Lemma to_unsigned_to_int (z : Z) : to_unsigned (to_int z) = to_unsigned z.
Proof. wrap. lia. Qed.

Lemma to_uchar_id_iff (z : Z) : to_uchar z = z <-> 0 <= z <= 255.
Proof. split; intros; wrap; lia. Qed.

(** ** Loops: lemmas *)

Lemma seqZ_S (a : Z) (n : nat) : seqZ a (S n) = a :: seqZ (a + 1) n.
Proof.
  unfold seqZ. simpl. f_equal; [lia|].
  rewrite <- seq_shift, map_map. apply map_ext. intros. lia.
Qed.

Lemma seqZ_length (a : Z) (n : nat) : length (seqZ a n) = n.
Proof. unfold seqZ. now rewrite length_map, length_seq. Qed.

Lemma in_seqZ (a : Z) (n : nat) (z : Z) :
  In z (seqZ a n) <-> a <= z < a + Z.of_nat n.
Proof.
  unfold seqZ. rewrite in_map_iff. split.
  - intros [k [E H]]. apply in_seq in H. lia.
  - intros H. exists (Z.to_nat (z - a)). split; [lia|].
    apply in_seq. lia.
Qed.

Lemma in_interval (lo hi z : Z) : In z (interval lo hi) <-> lo <= z <= hi.
Proof. unfold interval. rewrite in_seqZ. lia. Qed.

Lemma for_fuel_run_over {St : Type} (body : Z -> St -> result St) (b : Z) :
  forall (n : nat) (i : Z) (s : St),
    n = Z.to_nat (b - i) ->
    for_fuel n i b body s = run_over body (seqZ i n) s.
Proof.
  induction n as [|n IH]; intros i s Hn.
  - reflexivity.
  - rewrite seqZ_S. simpl.
    destruct (Z.ltb_spec i b) as [Hlt|Hge]; [|lia].
    destruct (body i s) as [s'|e]; simpl; [|reflexivity].
    apply IH. lia.
Qed.

Lemma for_lt_run_over {St : Type} (a b : Z) (body : Z -> St -> result St)
      (s : St) :
  for_lt a b body s = run_over body (seqZ a (Z.to_nat (b - a))) s.
Proof. unfold for_lt. now apply for_fuel_run_over. Qed.

(** Fuel beyond the trip count is never used: the loop condition fails
    first. *)
Lemma for_fuel_enough {St : Type} (body : Z -> St -> result St) (b : Z) :
  forall (n : nat) (i : Z) (s : St),
    (Z.to_nat (b - i) <= n)%nat ->
    for_fuel n i b body s = for_lt i b body s.
Proof.
  unfold for_lt. induction n as [|n IH]; intros i s Hn.
  - replace (Z.to_nat (b - i)) with O by lia. reflexivity.
  - simpl. destruct (Z.ltb_spec i b) as [Hlt|Hge].
    + replace (Z.to_nat (b - i)) with (S (Z.to_nat (b - (i + 1)))) by lia.
      simpl. destruct (Z.ltb_spec i b) as [_|]; [|lia].
      destruct (body i s); simpl; [|reflexivity]. apply IH. lia.
    + replace (Z.to_nat (b - i)) with O by lia. reflexivity.
Qed.

Lemma for_lt_first_err {St : Type} (a b : Z) (body : Z -> St -> result St)
      (s : St) (e : error) :
  a < b -> body a s = Err e -> for_lt a b body s = Err e.
Proof.
  intros Hlt Hb. unfold for_lt.
  replace (Z.to_nat (b - a)) with (S (Z.to_nat (b - (a + 1)))) by lia.
  simpl. destruct (Z.ltb_spec a b); [|lia]. now rewrite Hb.
Qed.

Lemma for_lt_none {St : Type} (a b : Z) (body : Z -> St -> result St) (s : St) :
  b <= a -> for_lt a b body s = Ok s.
Proof.
  intros. unfold for_lt. replace (Z.to_nat (b - a)) with O by lia. reflexivity.
Qed.

Lemma run_over_app {I St : Type} (body : I -> St -> result St) (l1 l2 : list I) :
  forall s, run_over body (l1 ++ l2) s
            = (s' <- run_over body l1 s ;; run_over body l2 s').
Proof.
  induction l1 as [|i l1 IH]; intros s; simpl; [reflexivity|].
  destruct (body i s); simpl; [apply IH|reflexivity].
Qed.

Lemma run_over_map {I J St : Type} (f : I -> J) (body : J -> St -> result St)
      (l : list I) :
  forall s, run_over body (map f l) s = run_over (fun i => body (f i)) l s.
Proof.
  induction l as [|i l IH]; intros s; simpl; [reflexivity|].
  destruct (body (f i) s); simpl; [apply IH|reflexivity].
Qed.

Lemma run_over_ext {I St : Type} (body1 body2 : I -> St -> result St)
      (l : list I) :
  (forall i s, body1 i s = body2 i s) ->
  forall s, run_over body1 l s = run_over body2 l s.
Proof.
  intros E. induction l as [|i l IH]; intros s; simpl; [reflexivity|].
  rewrite E. destruct (body2 i s); simpl; [apply IH|reflexivity].
Qed.

(** Two nested loops are one loop over the pairs of counters. *)
Lemma run_over_nested {I J St : Type} (body : I -> J -> St -> result St)
      (ls : list I) (cs : list J) :
  forall s,
    run_over (fun i => run_over (body i) cs) ls s
    = run_over (fun p => body (fst p) (snd p))
               (flat_map (fun i => map (pair i) cs) ls) s.
Proof.
  induction ls as [|i ls IH]; intros s; simpl; [reflexivity|].
  rewrite run_over_app, run_over_map. simpl.
  destruct (run_over (body i) cs s); simpl; [apply IH|reflexivity].
Qed.

(** ** The engine as one loop *)

Section EngineFacts.

Variable score : Type.
Variable gt : score -> score -> bool.
Variable matchTemplate : Mat Z -> Mat Z -> result (Mat score).
Variables limg rimg : Mat Z.
Variables numdisp mindisp blocksize : Z.

Let index_at (p : Z * Z) : result Z :=
  best_index gt matchTemplate limg rimg numdisp mindisp blocksize
             (to_int (snd p)) (fst p).

Let pixel_at (p : Z * Z) : engine_state -> result engine_state :=
  pixel gt matchTemplate limg rimg numdisp mindisp blocksize
        (fst p) (to_int (snd p)).

Lemma compute_dispmap_run_over (garbage : Z -> Z -> Z) :
  compute_dispmap gt matchTemplate limg rimg numdisp mindisp blocksize garbage
  = run_over pixel_at (loop_counters limg numdisp mindisp blocksize)
             (mkState (alloc limg garbage) []).
Proof.
  unfold compute_dispmap, loop_counters, row_counters.
  rewrite for_lt_run_over.
  rewrite <- (run_over_nested (fun y c => pixel_at (y, c))).
  apply run_over_ext. intros y st.
  unfold row, col_counters. now rewrite for_lt_run_over.
Qed.

Lemma pixel_at_Ok (p : Z * Z) (s s' : engine_state) :
  pixel_at p s = Ok s' ->
  exists k, index_at p = Ok k /\
            s' = mkState (Mat_set (dispmap s) (fst (cell p)) (snd (cell p))
                                  (to_uchar k))
                         (visited s ++ [cell p]).
Proof.
  unfold pixel_at, pixel, index_at, cell. simpl.
  destruct (best_index _ _ _ _ _ _ _ _ _) as [k|e]; simpl; [|discriminate].
  intros E. injection E as <-. now exists k.
Qed.

Lemma pixel_at_Err (p : Z * Z) (s : engine_state) (e : error) :
  index_at p = Err e -> pixel_at p s = Err e.
Proof.
  unfold pixel_at, pixel, index_at. intros E. now rewrite E.
Qed.

Lemma pixel_at_total (p : Z * Z) (s : engine_state) (k : Z) :
  index_at p = Ok k -> exists s', pixel_at p s = Ok s'.
Proof.
  unfold pixel_at, pixel, index_at. intros E. rewrite E. simpl. eauto.
Qed.

(** What a run that ends normally has done: every counter pair it went
    over yielded an index; the cells of these pairs, in order, extend the
    log; each of them holds the index found there, reduced to a [uchar];
    every other cell is as before. *)
Lemma run_over_Ok (l : list (Z * Z)) :
  forall s s',
    run_over pixel_at l s = Ok s' ->
    rows (dispmap s') = rows (dispmap s) /\
    cols (dispmap s') = cols (dispmap s) /\
    visited s' = visited s ++ map cell l /\
    (forall p, In p l -> exists k, index_at p = Ok k) /\
    (forall r c, In (r, c) (map cell l) ->
                 exists p k, In p l /\ cell p = (r, c) /\ index_at p = Ok k /\
                             px (dispmap s') r c = to_uchar k) /\
    (forall r c, ~ In (r, c) (map cell l) ->
                 px (dispmap s') r c = px (dispmap s) r c).
Proof.
  induction l as [|p l IH]; intros s s' H; simpl in H.
  - injection H as <-. simpl. rewrite app_nil_r.
    repeat split; try tauto; intros; contradiction.
  - destruct (pixel_at p s) as [s1|e] eqn:E1; simpl in H; [|discriminate].
    destruct (pixel_at_Ok _ _ _ E1) as [k [Ek Es1]].
    destruct (IH _ _ H) as [Hr [Hc [Hv [Hall [Hin Hout]]]]].
    subst s1. simpl in *.
    split; [exact Hr|]. split; [exact Hc|].
    split; [rewrite Hv, <- app_assoc; reflexivity|].
    split; [intros q [<-|Hq]; eauto|].
    split.
    + intros r c Hrc.
      assert (Hdec : forall a b : Z * Z, {a = b} + {a <> b})
        by (decide equality; apply Z.eq_dec).
      destruct (in_dec Hdec (r, c) (map cell l)) as [Hl|Hl].
      * destruct (Hin _ _ Hl) as [q [kq [Hq1 [Hq2 [Hq3 Hq4]]]]].
        exists q, kq. tauto.
      * destruct Hrc as [Hp|Hrc]; [|contradiction].
        exists p, k. rewrite (Hout _ _ Hl).
        repeat split; auto. unfold cell in Hp. injection Hp as <- <-.
        simpl. now rewrite !Z.eqb_refl.
    + intros r c Hrc. rewrite Hout by tauto.
      simpl.
      destruct (Z.eqb_spec r (to_int (fst p))) as [E'|]; simpl; [|reflexivity].
      destruct (Z.eqb_spec c (to_int (snd p))) as [E''|]; simpl; [|reflexivity].
      exfalso. apply Hrc. left. subst. reflexivity.
Qed.

Lemma run_over_total (l : list (Z * Z)) :
  (forall p, In p l -> exists k, index_at p = Ok k) ->
  forall s, exists s', run_over pixel_at l s = Ok s'.
Proof.
  induction l as [|p l IH]; intros Hall s; simpl.
  - eauto.
  - destruct (Hall p (or_introl eq_refl)) as [k Hk].
    destruct (pixel_at_total p s k Hk) as [s1 Hs1]. rewrite Hs1. simpl.
    apply IH. intros q Hq. apply Hall. now right.
Qed.

End EngineFacts.

(** ** Geometry of the block and of the strip *)

Lemma w_half (blocksize : Z) :
  1 <= blocksize <= INT_MAX -> Z.odd blocksize = true ->
  blocksize = 2 * w blocksize + 1 /\ 0 <= w blocksize <= 1073741823.
Proof.
  intros Hb Hodd. unfold w.
  rewrite Z.quot_div_nonneg by lia.
  apply Z.odd_spec in Hodd. destruct Hodd as [m Hm].
  assert (E : blocksize / 2 = m).
  { subst blocksize. rewrite Z.mul_comm, Z.div_add_l by lia.
    change (1 / 2) with 0. lia. }
  rewrite E. unfold INT_MAX in Hb.
  rewrite to_unsigned_id by (unfold UINT_MAX; lia). lia.
Qed.

Lemma maxdisp_exact (numdisp mindisp : Z) :
  is_unsigned numdisp -> is_int mindisp -> numdisp + mindisp <= INT_MAX ->
  maxdisp numdisp mindisp = numdisp + mindisp.
Proof. unfold maxdisp. intros. wrap. lia. Qed.

Lemma rect_inside_iff {A : Type} (r : Rect) (m : Mat A) :
  rect_inside r m = true <->
  (0 <= rc_x r /\ 0 <= rc_width r /\ rc_x r + rc_width r <= cols m) /\
  (0 <= rc_y r /\ 0 <= rc_height r /\ rc_y r + rc_height r <= rows m).
Proof.
  unfold rect_inside. rewrite !andb_true_iff, !Z.leb_le. tauto.
Qed.

Lemma w_bounds (blocksize : Z) :
  0 <= blocksize <= INT_MAX ->
  0 <= w blocksize <= 1073741823 /\
  2 * w blocksize <= blocksize <= 2 * w blocksize + 1.
Proof.
  intros Hb. unfold w. rewrite Z.quot_div_nonneg by lia.
  unfold INT_MAX in Hb.
  pose proof (Z.div_mod blocksize 2 ltac:(lia)) as E.
  pose proof (Z.mod_pos_bound blocksize 2 ltac:(lia)) as R.
  rewrite to_unsigned_id by (unfold UINT_MAX; lia). lia.
Qed.

(** A block that passes the test of [roi] has its corner [w] before its
    centre and fits the grid; the conversions did not wrap. *)
Lemma block_inside_bounds (limg : Mat Z) (blocksize x y : Z) :
  grid_ok limg ->
  0 <= blocksize <= INT_MAX ->
  is_int x -> is_unsigned y ->
  rect_inside (block blocksize x y) limg = true ->
  w blocksize <= x /\ x - w blocksize + blocksize <= cols limg /\
  w blocksize <= y /\ y - w blocksize + blocksize <= rows limg.
Proof.
  intros [Hr Hc] Hb Hx Hy Hin.
  destruct (w_bounds blocksize Hb) as [Hw Ew].
  apply rect_inside_iff in Hin. unfold block in Hin. simpl in Hin.
  revert Hin. generalize (w blocksize) Ew Hw. intros hw Ehw Hhw Hin.
  wrap. lia.
Qed.

Lemma block_eligible (limg : Mat Z) (numdisp mindisp blocksize x y : Z) :
  grid_ok limg -> params_ok numdisp mindisp blocksize ->
  0 <= numdisp + mindisp -> mindisp <= 1 ->
  eligible (rows limg) (cols limg) (w blocksize) (numdisp + mindisp) mindisp y x ->
  block blocksize x y
  = mkRect (x - w blocksize) (y - w blocksize) blocksize blocksize /\
  rect_inside (block blocksize x y) limg = true.
Proof.
  intros [Hr Hc] (Hn & Hm & Hb & Hodd & Hmax) H0 H1 [Hy Hx].
  destruct (w_half blocksize Hb Hodd) as [Ew Hw].
  assert (E : block blocksize x y
              = mkRect (x - w blocksize) (y - w blocksize) blocksize blocksize).
  { unfold block, Rect_size. simpl.
    revert Hy Hx. generalize (w blocksize) Ew Hw. intros hw Ehw Hhw Hy Hx.
    f_equal; wrap; lia. }
  split; [exact E|]. rewrite E. apply rect_inside_iff. simpl.
  unfold INT_MAX in *. lia.
Qed.

(** The strip at an eligible coordinate, as section 4.3 describes it. *)
Lemma slice_eligible (nrows ncols numdisp mindisp blocksize x y : Z) :
  0 <= nrows <= INT_MAX -> 0 <= ncols <= INT_MAX ->
  params_ok numdisp mindisp blocksize ->
  eligible nrows ncols (w blocksize) (numdisp + mindisp) mindisp y x ->
  slice numdisp mindisp blocksize x y
  = mkRect (x - w blocksize - (numdisp + mindisp)) (y - w blocksize)
           (blocksize + numdisp) blocksize.
Proof.
  intros Hr Hc (Hn & Hm & Hb & Hodd & Hmax) [Hy Hx].
  destruct (w_half blocksize Hb Hodd) as [Ew Hw].
  unfold slice. rewrite (maxdisp_exact numdisp mindisp Hn Hm Hmax).
  revert Hy Hx. generalize (w blocksize) Ew Hw. intros hw Ehw Hhw Hy Hx.
  assert (E1 : to_int (to_unsigned (x - hw - (numdisp + mindisp)))
               = x - hw - (numdisp + mindisp)) by (wrap; lia).
  assert (E2 : to_int (to_unsigned (y - hw)) = y - hw) by (wrap; lia).
  assert (E3 : to_int (to_unsigned (x + hw + 1 - mindisp))
               = x + hw + 1 - mindisp) by (wrap; lia).
  assert (E4 : to_int (to_unsigned (y + hw + 1)) = y + hw + 1) by (wrap; lia).
  rewrite E1, E2, E3, E4. unfold Rect_pts. simpl.
  unfold is_unsigned, is_int, INT_MAX, INT_MIN, UINT_MAX in *.
  rewrite !Z.min_l, !Z.max_r by lia.
  f_equal; rewrite to_int_id; unfold INT_MIN, INT_MAX; lia.
Qed.

(** With [mindisp = 0] and the right grid equal to the left one, the window
    of the strip that starts [numdisp] samples from its left edge is the
    block itself: offset [numdisp] compares the block with itself. *)
Lemma self_match_window (limg : Mat Z) (numdisp blocksize y x : Z) :
  grid_ok limg -> params_ok numdisp 0 blocksize ->
  eligible (rows limg) (cols limg) (w blocksize) (numdisp + 0) 0 y x ->
  exists feature strip,
    roi limg (block blocksize x y) = Ok feature /\
    roi limg (slice numdisp 0 blocksize x y) = Ok strip /\
    forall i j, px strip i (numdisp + j) = px feature i j.
Proof.
  intros Hg Hp He.
  pose proof Hp as (Hn & Hm & Hb & Hodd & Hmax).
  destruct (w_half blocksize Hb Hodd) as [Ew Hw].
  assert (H0 : 0 <= numdisp + 0) by (unfold is_unsigned in Hn; lia).
  destruct (block_eligible limg numdisp 0 blocksize x y Hg Hp H0 ltac:(lia) He)
    as [Eb Hbi].
  pose proof (slice_eligible (rows limg) (cols limg) numdisp 0 blocksize
                             x y (proj1 Hg) (proj2 Hg) Hp He) as Es.
  assert (Hs : rect_inside (slice numdisp 0 blocksize x y) limg = true).
  { rewrite Es. apply rect_inside_iff. simpl.
    destruct He as [Hy Hx]. unfold is_unsigned in Hn. lia. }
  unfold roi. rewrite Hbi, Hs, Eb, Es.
  do 2 eexists. split; [reflexivity|]. split; [reflexivity|].
  intros i j. simpl. f_equal. lia.
Qed.

(** ** Eligible coordinates and loop counters *)

Lemma in_eligible_coords (nrows ncols hw maxd mind y x : Z) :
  In (y, x) (eligible_coords nrows ncols hw maxd mind)
  <-> eligible nrows ncols hw maxd mind y x.
Proof.
  unfold eligible_coords, eligible. rewrite in_flat_map. split.
  - intros [y' [Hy Hx]]. apply in_map_iff in Hx. destruct Hx as [x' [E Hx]].
    injection E as <- <-. apply in_interval in Hy, Hx. lia.
  - intros [Hy Hx]. exists y. split; [now apply in_interval|].
    apply in_map_iff. exists x. split; [reflexivity|now apply in_interval].
Qed.

Lemma in_loop_counters (limg : Mat Z) (numdisp mindisp blocksize y c : Z) :
  In (y, c) (loop_counters limg numdisp mindisp blocksize)
  <-> In y (row_counters limg blocksize) /\
      In c (col_counters limg numdisp mindisp blocksize).
Proof.
  unfold loop_counters. rewrite in_flat_map. split.
  - intros [y' [Hy Hc]]. apply in_map_iff in Hc. destruct Hc as [c' [E Hc]].
    injection E as <- <-. tauto.
  - intros [Hy Hc]. exists y. split; [exact Hy|].
    apply in_map_iff. now exists c.
Qed.

(** In the regime of [engine_regime] the loops run over the eligible
    coordinates of section 4.1, in row-major order. *)
Lemma loop_counters_regime (limg rimg : Mat Z) (numdisp mindisp blocksize : Z) :
  engine_regime limg rimg numdisp mindisp blocksize ->
  loop_counters limg numdisp mindisp blocksize
  = eligible_coords (rows limg) (cols limg) (w blocksize)
                    (numdisp + mindisp) mindisp.
Proof.
  intros ([Hr Hc] & _ & _ & (Hn & Hm & Hb & Hodd & Hmax) & H0 & H1 & Hwr & Hwc).
  destruct (w_half blocksize Hb Hodd) as [Ew Hw].
  unfold loop_counters, eligible_coords, row_counters, col_counters, interval.
  rewrite (maxdisp_exact numdisp mindisp Hn Hm Hmax).
  rewrite to_unsigned_to_int.
  assert (Ea : to_unsigned (numdisp + mindisp + w blocksize)
               = numdisp + mindisp + w blocksize).
  { apply to_unsigned_id. unfold is_unsigned, UINT_MAX, INT_MAX in *. lia. }
  assert (Eb : to_unsigned (cols limg + mindisp - w blocksize - 1)
               = cols limg + mindisp - w blocksize - 1).
  { apply to_unsigned_id. unfold is_int, UINT_MAX, INT_MAX in *. lia. }
  assert (Ec : to_unsigned (rows limg - w blocksize - 1)
               = rows limg - w blocksize - 1).
  { apply to_unsigned_id. unfold UINT_MAX, INT_MAX in *. lia. }
  rewrite !Ea, Eb, Ec.
  replace (rows limg - w blocksize - 2 - w blocksize + 1)
    with (rows limg - w blocksize - 1 - w blocksize) by lia.
  replace (cols limg + mindisp - w blocksize - 2
           - (numdisp + mindisp + w blocksize) + 1)
    with (cols limg + mindisp - w blocksize - 1
          - (numdisp + mindisp + w blocksize)) by lia.
  reflexivity.
Qed.


(** ** The engine: what a run does *)

Section EngineTheorems.

Variable score : Type.
Variable gt : score -> score -> bool.
Variable matchTemplate : Mat Z -> Mat Z -> result (Mat score).
Variables limg rimg : Mat Z.
Variables numdisp mindisp blocksize : Z.
Variable garbage : Z -> Z -> Z.

Lemma best_index_Ok_inside (x y k : Z) :
  best_index gt matchTemplate limg rimg numdisp mindisp blocksize x y = Ok k ->
  rect_inside (block blocksize x y) limg = true /\
  rect_inside (slice numdisp mindisp blocksize x y) rimg = true.
Proof.
  unfold best_index, nccs, roi.
  destruct (rect_inside (block blocksize x y) limg); simpl; [|discriminate].
  destruct (rect_inside (slice numdisp mindisp blocksize x y) rimg); simpl;
    [tauto|discriminate].
Qed.

Lemma best_index_nccs (x y : Z) (scores : Mat score) :
  nccs matchTemplate limg rimg numdisp mindisp blocksize x y = Ok scores ->
  best_index gt matchTemplate limg rimg numdisp mindisp blocksize x y
  = Ok (pt_x (minMaxLoc gt scores)).
Proof. unfold best_index. intros E. now rewrite E. Qed.

(** At an eligible coordinate of the regime, block and strip are
    extracted and the scorer returns one row of [numdisp + 1] scores. *)
Lemma nccs_eligible (y x : Z) :
  engine_regime limg rimg numdisp mindisp blocksize ->
  matchTemplate_sized matchTemplate ->
  eligible (rows limg) (cols limg) (w blocksize) (numdisp + mindisp) mindisp
           y x ->
  exists scores,
    nccs matchTemplate limg rimg numdisp mindisp blocksize x y = Ok scores /\
    rows scores = 1 /\ cols scores = numdisp + 1.
Proof.
  intros (Hg & Er & Ec & Hp & H0 & H1 & Hwr & Hwc) Hmt He.
  destruct (block_eligible limg numdisp mindisp blocksize x y Hg Hp H0 H1 He)
    as [Eb Hb].
  pose proof (slice_eligible (rows limg) (cols limg) numdisp mindisp blocksize
                             x y (proj1 Hg) (proj2 Hg) Hp He) as Es.
  assert (Hs : rect_inside (slice numdisp mindisp blocksize x y) rimg = true).
  { rewrite Es. apply rect_inside_iff. simpl. rewrite Er, Ec.
    destruct Hp as (Hn & Hm & Hbs & Hodd & Hmax).
    destruct (w_half blocksize Hbs Hodd) as [Ew Hw].
    destruct He as [Hy Hx]. unfold is_unsigned in Hn. lia. }
  unfold nccs, roi. rewrite Hb, Hs, Es, Eb. simpl.
  destruct Hp as (Hn & Hm & Hbs & Hodd & Hmax).
  match goal with |- context [matchTemplate ?i ?t] =>
    destruct (Hmt i t) as [r [E [Hr Hc]]] end.
  - simpl. lia.
  - simpl. unfold is_unsigned in Hn. lia.
  - exists r. split; [exact E|]. simpl in Hr, Hc. lia.
Qed.

(** Total correctness in the regime: the run ends normally, has gone over
    exactly the eligible coordinates in row-major order, has stored at
    each of them the selected index as a [uchar], and has left every
    other cell as allocated. *)
Lemma engine_total :
  engine_regime limg rimg numdisp mindisp blocksize ->
  matchTemplate_sized matchTemplate ->
  exists st,
    compute_dispmap gt matchTemplate limg rimg numdisp mindisp blocksize
                    garbage = Ok st /\
    rows (dispmap st) = rows limg /\ cols (dispmap st) = cols limg /\
    visited st = eligible_coords (rows limg) (cols limg) (w blocksize)
                                 (numdisp + mindisp) mindisp /\
    (forall y x,
        eligible (rows limg) (cols limg) (w blocksize) (numdisp + mindisp)
                 mindisp y x ->
        exists scores,
          nccs matchTemplate limg rimg numdisp mindisp blocksize x y
          = Ok scores /\
          rows scores = 1 /\ cols scores = numdisp + 1 /\
          px (dispmap st) y x = to_uchar (pt_x (minMaxLoc gt scores))) /\
    (forall y x,
        ~ eligible (rows limg) (cols limg) (w blocksize) (numdisp + mindisp)
                   mindisp y x ->
        px (dispmap st) y x = garbage y x).
Proof.
  intros Hreg Hmt.
  pose proof (loop_counters_regime _ _ _ _ _ Hreg) as El.
  assert (Hcell : forall p,
             In p (loop_counters limg numdisp mindisp blocksize) ->
             cell p = p).
  { intros [y x] Hp. rewrite El in Hp. apply in_eligible_coords in Hp.
    destruct Hreg as ([Hr Hc] & _ & _ & (Hn & Hm & Hb & Hodd & Hmax) & H0 & H1
                      & _ & _).
    destruct (w_half blocksize Hb Hodd) as [Ew Hw].
    destruct Hp as [Hy Hx]. unfold cell. simpl.
    unfold INT_MAX in *.
    rewrite !to_int_id by (unfold INT_MIN, INT_MAX; lia). reflexivity. }
  assert (Hmap : map cell (loop_counters limg numdisp mindisp blocksize)
                 = loop_counters limg numdisp mindisp blocksize).
  { rewrite <- (map_id (loop_counters _ _ _ _)) at 2.
    apply map_ext_in. exact Hcell. }
  assert (Hall : forall p,
             In p (loop_counters limg numdisp mindisp blocksize) ->
             exists k,
               best_index gt matchTemplate limg rimg numdisp mindisp blocksize
                          (to_int (snd p)) (fst p) = Ok k).
  { intros [y x] Hp. pose proof (Hcell _ Hp) as E.
    unfold cell in E. simpl in E. injection E as _ Ex. simpl. rewrite Ex.
    rewrite El in Hp. apply in_eligible_coords in Hp.
    destruct (nccs_eligible y x Hreg Hmt Hp) as [scores [E _]].
    rewrite (best_index_nccs _ _ _ E). eauto. }
  destruct (run_over_total score gt matchTemplate limg rimg numdisp mindisp
              blocksize _ Hall (mkState (alloc limg garbage) []))
    as [st Hst].
  exists st. rewrite compute_dispmap_run_over. split; [exact Hst|].
  apply run_over_Ok in Hst.
  destruct Hst as (Hr & Hc & Hv & _ & Hin & Hout).
  rewrite Hmap in Hv, Hin, Hout. simpl in Hr, Hc, Hv, Hout.
  split; [exact Hr|]. split; [exact Hc|]. split; [now rewrite Hv, El|].
  split.
  - intros y x He.
    destruct (nccs_eligible y x Hreg Hmt He) as [scores [E [Hsr Hsc]]].
    exists scores. split; [exact E|]. split; [exact Hsr|]. split; [exact Hsc|].
    assert (Hp : In (y, x) (loop_counters limg numdisp mindisp blocksize))
      by (rewrite El; now apply in_eligible_coords).
    destruct (Hin y x Hp) as [q [k [Hq [Eq [Ek Epx]]]]].
    rewrite (Hcell q Hq) in Eq. subst q. simpl in Ek.
    pose proof (Hcell _ Hp) as Ec. unfold cell in Ec. simpl in Ec.
    injection Ec as _ Ex. rewrite Ex in Ek.
    rewrite (best_index_nccs _ _ _ E) in Ek. injection Ek as <-. exact Epx.
  - intros y x He. apply Hout. rewrite El. now rewrite in_eligible_coords.
Qed.


End EngineTheorems.

(** ** The selector *)

Section Selector.

Variable score : Type.
Variable gt : score -> score -> bool.
Hypothesis gt_ok : gt_order gt.
Variable m : Mat score.

(** The scan of row 0 from column [a] on, entered with the first maximum
    [b] of the columns before [a], ends on the first maximum of all the
    columns gone over. *)
Lemma scan_row_first_max (n : nat) :
  forall a b : Z,
    0 <= b < a ->
    (forall j, 0 <= j < a -> gt (px m 0 j) (px m 0 b) = false) ->
    (forall j, 0 <= j < b -> gt (px m 0 b) (px m 0 j) = true) ->
    exists k,
      fold_left (max_step gt m) (map (fun x => mkPoint x 0) (seqZ a n))
                (mkPoint b 0) = mkPoint k 0 /\
      0 <= k < a + Z.of_nat n /\
      (forall j, 0 <= j < a + Z.of_nat n -> gt (px m 0 j) (px m 0 k) = false) /\
      (forall j, 0 <= j < k -> gt (px m 0 k) (px m 0 j) = true).
Proof.
  destruct gt_ok as (Hirr & Htr & Hntr).
  induction n as [|n IH]; intros a b Hb Hmax Hfirst.
  - exists b. simpl. repeat split; try lia; auto.
    intros j Hj. apply Hmax. lia.
  - rewrite seqZ_S. cbn [map fold_left].
    unfold max_step at 2. cbn [pt_x pt_y].
    destruct (gt (px m 0 a) (px m 0 b)) eqn:Hab.
    + destruct (IH (a + 1) a) as [k Hk]; try lia.
      * intros j Hj. destruct (Z.eq_dec j a) as [->|Hne]; [apply Hirr|].
        destruct (gt (px m 0 j) (px m 0 a)) eqn:Hja; [|reflexivity].
        rewrite <- (Hmax j ltac:(lia)). symmetry. now apply Htr with (px m 0 a).
      * intros j Hj.
        destruct (gt (px m 0 a) (px m 0 j)) eqn:Haj; [reflexivity|].
        rewrite <- Hab. symmetry.
        apply Hntr with (px m 0 j); [exact Haj|apply Hmax; lia].
      * exists k. replace (a + Z.of_nat (S n)) with (a + 1 + Z.of_nat n) by lia.
        exact Hk.
    + destruct (IH (a + 1) b) as [k Hk]; try lia.
      * intros j Hj. destruct (Z.eq_dec j a) as [->|Hne]; [exact Hab|].
        apply Hmax. lia.
      * exact Hfirst.
      * exists k. replace (a + Z.of_nat (S n)) with (a + 1 + Z.of_nat n) by lia.
        exact Hk.
Qed.

Lemma mat_coords_row :
  rows m = 1 ->
  mat_coords m = map (fun x => mkPoint x 0) (seqZ 0 (Z.to_nat (cols m))).
Proof.
  intros E. unfold mat_coords. rewrite E.
  change (Z.to_nat 1) with 1%nat. rewrite seqZ_S. simpl.
  now rewrite app_nil_r.
Qed.

Lemma minMaxLoc_row :
  rows m = 1 -> 1 <= cols m ->
  exists k,
    minMaxLoc gt m = mkPoint k 0 /\
    0 <= k < cols m /\
    (forall j, 0 <= j < cols m -> gt (px m 0 j) (px m 0 k) = false) /\
    (forall j, 0 <= j < k -> gt (px m 0 k) (px m 0 j) = true).
Proof.
  intros Er Hc. unfold minMaxLoc. rewrite (mat_coords_row Er).
  destruct (Z.to_nat (cols m)) as [|n] eqn:En; [lia|].
  rewrite seqZ_S. cbn [map].
  destruct gt_ok as (Hirr & _).
  destruct (scan_row_first_max n 1 0) as [k Hk]; try lia.
  - intros j Hj. replace j with 0 by lia. apply Hirr.
  - exists k. replace (cols m) with (1 + Z.of_nat n) by lia. exact Hk.
Qed.

End Selector.

(** The selector reads nothing but the size of the matrix and its scores. *)
Lemma minMaxLoc_ext {score : Type} (gt : score -> score -> bool)
      (m m' : Mat score) :
  rows m' = rows m -> cols m' = cols m ->
  (forall y x, px m' y x = px m y x) ->
  minMaxLoc gt m' = minMaxLoc gt m.
Proof.
  intros Er Ec Epx. unfold minMaxLoc, mat_coords. rewrite Er, Ec.
  match goal with |- context [flat_map ?f ?l] => generalize (flat_map f l) end.
  intros [|p ps]; [reflexivity|].
  revert p. induction ps as [|q ps IH]; intros p; simpl; [reflexivity|].
  unfold max_step at 2 4. rewrite !Epx. apply IH.
Qed.

Lemma max_scan_in {score : Type} (gt : score -> score -> bool) (m : Mat score)
      (ps : list Point) :
  forall p, In (fold_left (max_step gt m) ps p) (p :: ps).
Proof.
  induction ps as [|q ps IH]; intros p; [now left|].
  cbn [fold_left].
  assert (H : max_step gt m p q = p \/ max_step gt m p q = q)
    by (unfold max_step; destruct (gt _ _); auto).
  destruct H as [-> | ->]; [specialize (IH p)|specialize (IH q)];
    simpl in *; tauto.
Qed.

Lemma in_mat_coords {A : Type} (m : Mat A) (q : Point) :
  In q (mat_coords m) <->
  (0 <= pt_x q < cols m /\ 0 <= pt_y q < rows m).
Proof.
  unfold mat_coords. rewrite in_flat_map. split.
  - intros [y [Hy Hq]]. apply in_map_iff in Hq. destruct Hq as [x [<- Hx]].
    apply in_seqZ in Hy, Hx. simpl. lia.
  - intros [Hx Hy]. exists (pt_y q). split; [apply in_seqZ; lia|].
    apply in_map_iff. exists (pt_x q). split; [now destruct q|].
    apply in_seqZ. lia.
Qed.

(** On a matrix with at least one element the selected position is a
    position of the matrix. *)
Lemma minMaxLoc_range {score : Type} (gt : score -> score -> bool)
      (m : Mat score) :
  1 <= rows m -> 1 <= cols m ->
  0 <= pt_x (minMaxLoc gt m) < cols m /\ 0 <= pt_y (minMaxLoc gt m) < rows m.
Proof.
  intros Hr Hc. apply in_mat_coords. unfold minMaxLoc.
  destruct (mat_coords m) as [|p ps] eqn:E.
  - assert (H : In (mkPoint 0 0) (mat_coords m))
      by (apply in_mat_coords; simpl; lia).
    rewrite E in H. contradiction.
  - apply max_scan_in.
Qed.

Lemma w_div (blocksize : Z) :
  0 <= blocksize <= INT_MAX -> w blocksize = blocksize / 2.
Proof.
  intros Hb. unfold w. rewrite Z.quot_div_nonneg by lia.
  apply to_unsigned_id. unfold INT_MAX, UINT_MAX in *.
  pose proof (Z.div_pos blocksize 2 ltac:(lia) ltac:(lia)).
  pose proof (Z.div_le_upper_bound blocksize 2 blocksize ltac:(lia) ltac:(lia)).
  lia.
Qed.

(** ** The exact scorer: it is an instance of the engine's parameters *)

Lemma Exact_matchTemplate_sized : matchTemplate_sized Exact.matchTemplate.
Proof.
  intros img templ Hr Hc. unfold Exact.matchTemplate.
  destruct (Z.leb_spec 1 (rows templ)); [|lia].
  destruct (Z.leb_spec (rows templ) (rows img)); [|lia].
  destruct (Z.leb_spec 1 (cols templ)); [|lia].
  destruct (Z.leb_spec (cols templ) (cols img)); [|lia].
  simpl. eexists. split; [reflexivity|]. simpl. lia.
Qed.

Lemma Exact_gt_order : gt_order Exact.gt.
Proof.
  unfold gt_order, Exact.gt. repeat split.
  - intros a. apply negb_false_iff, Qle_bool_iff, Qle_refl.
  - intros a b c Hab Hbc. apply negb_true_iff in Hab, Hbc.
    apply negb_true_iff. apply not_true_iff_false. intros Hac.
    apply Qle_bool_iff in Hac.
    apply not_true_iff_false in Hab, Hbc. rewrite Qle_bool_iff in Hab, Hbc.
    apply Qnot_le_lt in Hab, Hbc.
    apply (Qlt_irrefl a). apply Qle_lt_trans with c; [exact Hac|].
    now apply Qlt_trans with b.
  - intros a b c Hab Hbc. apply negb_false_iff in Hab, Hbc.
    apply negb_false_iff. apply Qle_bool_iff in Hab, Hbc.
    apply Qle_bool_iff. now apply Qle_trans with b.
Qed.

Lemma Zgtb_order : gt_order Z.gtb.
Proof.
  unfold gt_order. repeat split; intros;
    repeat match goal with
      | H : (_ >? _) = _ |- _ => rewrite Z.gtb_ltb in H
      | |- (_ >? _) = _ => rewrite Z.gtb_ltb
      end;
    rewrite ?Z.ltb_lt, ?Z.ltb_ge in *; lia.
Qed.

(** ** Runs on concrete grids *)

(** [numdisp = 256] on [spike]: the one eligible coordinate is (0, 256); its
    strip is the whole of row 0 up to column 256, the best offset is 256 and
    the cell receives 0. *)
Lemma spike_run :
  exists st,
    compute_dispmap Exact.gt Exact.matchTemplate spike spike 256 0 1 stale
    = Ok st /\
    visited st = [(0, 256)] /\
    px (dispmap st) 0 256 = 0 /\
    best_index Exact.gt Exact.matchTemplate spike spike 256 0 1 256 0 = Ok 256.
Proof.
  eexists. split; [vm_compute; reflexivity|].
  split; [reflexivity|]. split; vm_compute; reflexivity.
Qed.

(** Decides a closed conjunction of comparisons and equations. *)
Ltac closed_facts :=
  repeat split; vm_compute; first [reflexivity | intro; discriminate].

(** When both loops are entered and the first pixel fails, the run fails:
    nothing catches the exception.  The four runs below fail in the
    extraction of the block, before the scorer is called, hence for every
    scorer. *)
Lemma first_pixel_fails {score : Type} (gt : score -> score -> bool)
      (matchTemplate : Mat Z -> Mat Z -> result (Mat score))
      (limg rimg : Mat Z) (numdisp mindisp blocksize : Z)
      (garbage : Z -> Z -> Z) (e : error) :
  w blocksize < to_unsigned (rows limg - w blocksize - 1) ->
  to_unsigned (to_int (to_unsigned (maxdisp numdisp mindisp + w blocksize)))
  < to_unsigned (cols limg + mindisp - w blocksize - 1) ->
  best_index gt matchTemplate limg rimg numdisp mindisp blocksize
    (to_int (to_unsigned (to_int (to_unsigned (maxdisp numdisp mindisp
                                                + w blocksize)))))
    (w blocksize) = Err e ->
  compute_dispmap gt matchTemplate limg rimg numdisp mindisp blocksize garbage
  = Err e.
Proof.
  intros Hy Hx Hb. unfold compute_dispmap.
  apply for_lt_first_err; [exact Hy|].
  unfold row. apply for_lt_first_err; [exact Hx|].
  unfold pixel. now rewrite Hb.
Qed.

(** [mindisp = 2] on a 2 x 2 grid with [blocksize = 1]: the loops reach
    (y, x) = (0, 2), whose block starts at column 2 of a grid of 2 columns. *)
Lemma mindisp2_run {score : Type} (gt : score -> score -> bool)
      (matchTemplate : Mat Z -> Mat Z -> result (Mat score))
      (garbage : Z -> Z -> Z) :
  compute_dispmap gt matchTemplate (flat 2 2 1) (flat 2 2 1) 0 2 1 garbage
  = Err CvAssert.
Proof. apply first_pixel_fails; vm_compute; reflexivity. Qed.

(** [numdisp = 0], [mindisp = -1] on a 4 x 4 grid with [blocksize = 3]:
    [maxdisp = -1], the loops reach (y, x) = (1, 0), whose block starts at
    column -1. *)
Lemma negative_maxdisp_run {score : Type} (gt : score -> score -> bool)
      (matchTemplate : Mat Z -> Mat Z -> result (Mat score))
      (garbage : Z -> Z -> Z) :
  compute_dispmap gt matchTemplate (textured 4 4) (textured 4 4) 0 (-1) 3
                  garbage = Err CvAssert.
Proof. apply first_pixel_fails; vm_compute; reflexivity. Qed.

(** One row and [blocksize = 3]: [rows - w - 1] is -1, as an unsigned value
    4294967295, so the outer loop is entered at [y = 1] and the 3 x 3 block
    does not fit the single row. *)
Lemma short_grid_run {score : Type} (gt : score -> score -> bool)
      (matchTemplate : Mat Z -> Mat Z -> result (Mat score))
      (garbage : Z -> Z -> Z) :
  compute_dispmap gt matchTemplate (flat 1 4 1) (flat 1 4 1) 0 0 3 garbage
  = Err CvAssert.
Proof. apply first_pixel_fails; vm_compute; reflexivity. Qed.

(** One column and [blocksize = 3]: [cols + mindisp - w - 1] is -1, as an
    unsigned value 4294967295, so the inner loop is entered at [x = 1]. *)
Lemma narrow_grid_run {score : Type} (gt : score -> score -> bool)
      (matchTemplate : Mat Z -> Mat Z -> result (Mat score))
      (garbage : Z -> Z -> Z) :
  compute_dispmap gt matchTemplate (flat 4 1 1) (flat 4 1 1) 0 0 3 garbage
  = Err CvAssert.
Proof. apply first_pixel_fails; vm_compute; reflexivity. Qed.

(** [numdisp = 0], [blocksize = 1] on a 2 x 2 grid: the cell (0, 0) is
    eligible and stored, although [2 * (numdisp + blocksize) >= cols]. *)
Lemma tiny_run :
  exists st,
    compute_dispmap Exact.gt Exact.matchTemplate (flat 2 2 1) (flat 2 2 1) 0 0 1
                    stale = Ok st /\
    visited st = [(0, 0)] /\ px (dispmap st) 0 0 = 0.
Proof.
  eexists. split; [vm_compute; reflexivity|]. split; reflexivity.
Qed.

(** * The claims *)

(** ** C1 *)

(** C1, as the specification states it, fails on the code.  By design: the
    cell is a [uchar], so with [numdisp = 256] the selected index 256 is
    stored as 0.  By the loop bounds: with [mindisp = 2], with a negative
    [maxdisp], with [rows <= w] and with [cols + mindisp <= w] the run ends
    in an OpenCV assertion failure instead of visiting the eligible range. *)
Lemma C1_counterexample :
  ~ visits_as_specified Exact.gt Exact.matchTemplate spike spike 256 0 1 stale /\
  ~ visits_as_specified Exact.gt Exact.matchTemplate (flat 2 2 1) (flat 2 2 1)
      0 2 1 stale /\
  ~ visits_as_specified Exact.gt Exact.matchTemplate (textured 4 4)
      (textured 4 4) 0 (-1) 3 stale /\
  ~ visits_as_specified Exact.gt Exact.matchTemplate (flat 1 4 1) (flat 1 4 1)
      0 0 3 stale /\
  ~ visits_as_specified Exact.gt Exact.matchTemplate (flat 4 1 1) (flat 4 1 1)
      0 0 3 stale.
Proof.
  split; [|repeat split].
  - intros [st [E [_ H]]].
    destruct spike_run as [st0 [E0 [_ [Epx Eidx]]]].
    rewrite E0 in E. injection E as <-.
    destruct (H 0 256) as [scores [En Hpx]].
    + unfold eligible. change (1 / 2) with 0. simpl. lia.
    + rewrite (best_index_nccs _ _ _ _ _ _ _ _ _ _ _ En) in Eidx.
      injection Eidx as Eidx. rewrite Eidx, Epx in Hpx. discriminate.
  - intros [st [E _]]. rewrite mindisp2_run in E. discriminate.
  - intros [st [E _]]. rewrite negative_maxdisp_run in E. discriminate.
  - intros [st [E _]]. rewrite short_grid_run in E. discriminate.
  - intros [st [E _]]. rewrite narrow_grid_run in E. discriminate.
Qed.

(** C1, amended: for two grids of one size and well-typed parameters with
    [0 <= numdisp + mindisp], [mindisp <= 1] and [blocksize / 2] below
    [rows] and below [cols + mindisp], the engine ends normally, has visited
    exactly the coordinates y in [w, rows-w-2], x in [maxdisp+w,
    cols+mindisp-w-2] in row-major order, and each of these cells holds the
    index the selector returned for that coordinate's score row, reduced
    modulo 256. *)
Theorem C1_engine_visits_eligible_range
        (score : Type) (gt : score -> score -> bool)
        (matchTemplate : Mat Z -> Mat Z -> result (Mat score))
        (limg rimg : Mat Z) (numdisp mindisp blocksize : Z)
        (garbage : Z -> Z -> Z) :
  engine_regime limg rimg numdisp mindisp blocksize ->
  matchTemplate_sized matchTemplate ->
  exists st,
    compute_dispmap gt matchTemplate limg rimg numdisp mindisp blocksize garbage
    = Ok st /\
    visited st = eligible_coords (rows limg) (cols limg) (blocksize / 2)
                                 (numdisp + mindisp) mindisp /\
    forall y x,
      eligible (rows limg) (cols limg) (blocksize / 2) (numdisp + mindisp)
               mindisp y x ->
      exists scores,
        nccs matchTemplate limg rimg numdisp mindisp blocksize x y = Ok scores /\
        px (dispmap st) y x = pt_x (minMaxLoc gt scores) mod 256.
Proof.
  intros Hreg Hmt.
  destruct (engine_total score gt matchTemplate limg rimg numdisp mindisp
                         blocksize garbage Hreg Hmt)
    as [st (E & _ & _ & Hv & Hin & _)].
  assert (Ew : w blocksize = blocksize / 2).
  { apply w_div. destruct Hreg as (_ & _ & _ & (_ & _ & Hb & _) & _). lia. }
  rewrite Ew in Hv, Hin.
  exists st. split; [exact E|]. split; [exact Hv|].
  intros y x He. destruct (Hin y x He) as [scores (En & _ & _ & Hpx)].
  exists scores. split; [exact En|exact Hpx].
Qed.

Lemma C1_witness :
  exists st,
    compute_dispmap Exact.gt Exact.matchTemplate (textured 6 8) (textured 6 8)
                    2 0 3 stale = Ok st /\
    visited st = eligible_coords 6 8 (3 / 2) (2 + 0) 0 /\
    forall y x,
      eligible 6 8 (3 / 2) (2 + 0) 0 y x ->
      exists scores,
        nccs Exact.matchTemplate (textured 6 8) (textured 6 8) 2 0 3 x y
        = Ok scores /\
        px (dispmap st) y x = pt_x (minMaxLoc Exact.gt scores) mod 256.
Proof.
  apply (C1_engine_visits_eligible_range Q Exact.gt Exact.matchTemplate
           (textured 6 8) (textured 6 8) 2 0 3 stale).
  - unfold engine_regime, params_ok, grid_ok, is_int, is_unsigned. closed_facts.
  - exact Exact_matchTemplate_sized.
Defined.

(** ** C2 *)

Lemma flat_map_no_columns {I J : Type} (ls : list I) :
  flat_map (fun i => map (pair i) (@nil J)) ls = [].
Proof. induction ls as [|i ls IH]; simpl; [reflexivity|exact IH]. Qed.

(** C2, as the specification states it, fails on the code.  By design: on a
    2 x 2 grid with [numdisp = 0] and [blocksize = 1] the inequality
    [2*(numdisp+blocksize) >= cols] holds and yet (0, 0) is eligible and
    stored.  By the unsigned loop bound: on a grid of one row with
    [blocksize = 3] the eligible range is empty, [blocksize >= rows], and the
    run ends in an assertion failure. *)
Lemma C2_counterexample :
  ~ no_writes_as_specified Exact.gt Exact.matchTemplate (flat 2 2 1) (flat 2 2 1)
      0 0 1 stale /\
  ~ no_writes_as_specified Exact.gt Exact.matchTemplate (flat 1 4 1) (flat 1 4 1)
      0 0 3 stale.
Proof.
  split; intros H.
  - destruct H as [st [E [Hv _]]].
    + right. left. vm_compute. discriminate.
    + destruct tiny_run as [st0 [E0 [Hv0 _]]].
      rewrite E0 in E. injection E as <-. rewrite Hv0 in Hv. discriminate.
  - destruct H as [st [E _]].
    + right. right. vm_compute. discriminate.
    + rewrite short_grid_run in E. discriminate.
Qed.

(** C2, amended: for well-typed parameters (an unsigned [numdisp], an [int]
    [mindisp], a positive [int] [blocksize], [numdisp + mindisp] within
    [int]) with [blocksize / 2] below [rows] and below [cols + mindisp],
    whenever the eligible range of section 4.1 is empty (for example when
    [blocksize >= rows], or when [numdisp + blocksize >= cols]) the engine
    ends normally and returns the grid as allocated, with no written cell. *)
Theorem C2_empty_range_no_writes
        (score : Type) (gt : score -> score -> bool)
        (matchTemplate : Mat Z -> Mat Z -> result (Mat score))
        (limg rimg : Mat Z) (numdisp mindisp blocksize : Z)
        (garbage : Z -> Z -> Z) :
  grid_ok limg ->
  is_unsigned numdisp -> is_int mindisp -> 1 <= blocksize <= INT_MAX ->
  numdisp + mindisp <= INT_MAX ->
  blocksize / 2 < rows limg -> blocksize / 2 < cols limg + mindisp ->
  ((forall y x, ~ eligible (rows limg) (cols limg) (blocksize / 2)
                          (numdisp + mindisp) mindisp y x) \/
   numdisp + blocksize >= cols limg \/
   blocksize >= rows limg) ->
  exists st,
    compute_dispmap gt matchTemplate limg rimg numdisp mindisp blocksize garbage
    = Ok st /\
    visited st = [] /\
    rows (dispmap st) = rows limg /\ cols (dispmap st) = cols limg /\
    forall y x, px (dispmap st) y x = garbage y x.
Proof.
  intros [Hr Hc] Hn Hm Hb Hmax Hwr Hwc Hempty.
  rewrite <- (w_div blocksize ltac:(lia)) in Hwr, Hwc, Hempty.
  destruct (w_bounds blocksize ltac:(lia)) as [Hw Ew].
  assert (Hcases : rows limg - w blocksize - 2 < w blocksize \/
                   cols limg + mindisp - w blocksize - 2
                   < numdisp + mindisp + w blocksize).
  { destruct Hempty as [Hne | [Hx | Hy]]; [|lia|lia].
    destruct (Z_lt_dec (rows limg - w blocksize - 2) (w blocksize));
      [now left|].
    destruct (Z_lt_dec (cols limg + mindisp - w blocksize - 2)
                       (numdisp + mindisp + w blocksize)); [now right|].
    exfalso. apply (Hne (w blocksize) (numdisp + mindisp + w blocksize)).
    unfold eligible. lia. }
  assert (El : loop_counters limg numdisp mindisp blocksize = []).
  { unfold loop_counters. destruct Hcases as [Hy | Hx].
    - unfold row_counters.
      rewrite (to_unsigned_id (rows limg - w blocksize - 1))
        by (unfold UINT_MAX, INT_MAX in *; lia).
      replace (Z.to_nat (rows limg - w blocksize - 1 - w blocksize))
        with O by lia.
      reflexivity.
    - unfold col_counters.
      rewrite (maxdisp_exact numdisp mindisp Hn Hm Hmax), to_unsigned_to_int.
      unfold is_unsigned, is_int, UINT_MAX, INT_MAX, INT_MIN in *.
      rewrite !(to_unsigned_id (numdisp + mindisp + w blocksize))
        by (unfold UINT_MAX; lia).
      rewrite (to_unsigned_id (cols limg + mindisp - w blocksize - 1))
        by (unfold UINT_MAX; lia).
      replace (Z.to_nat (cols limg + mindisp - w blocksize - 1
                         - (numdisp + mindisp + w blocksize)))
        with O by lia.
      apply flat_map_no_columns. }
  exists (mkState (alloc limg garbage) []).
  rewrite compute_dispmap_run_over, El. simpl. repeat split.
Qed.

Lemma C2_witness :
  exists st,
    compute_dispmap Exact.gt Exact.matchTemplate (textured 3 9) (textured 3 9)
                    2 0 3 stale = Ok st /\
    visited st = [] /\
    rows (dispmap st) = 3 /\ cols (dispmap st) = 9 /\
    forall y x, px (dispmap st) y x = stale y x.
Proof.
  apply (C2_empty_range_no_writes Q Exact.gt Exact.matchTemplate
           (textured 3 9) (textured 3 9) 2 0 3 stale).
  - unfold grid_ok. closed_facts.
  - unfold is_unsigned. closed_facts.
  - unfold is_int. closed_facts.
  - closed_facts.
  - vm_compute. discriminate.
  - vm_compute. reflexivity.
  - vm_compute. reflexivity.
  - right. right. vm_compute. discriminate.
Defined.

(** ** C4 *)

(** C4: on every score row (one row of at least one score, compared by a
    [>] that is an order of numbers) the selector returns a column of the
    row whose score no other score exceeds, and every column before it has
    a strictly smaller score: the first maximum in scan order from 0.  The
    result depends on nothing but the row's size and scores, so it is the
    same on every run. *)
Theorem C4_selector_first_maximum
        (score : Type) (gt : score -> score -> bool) (scores : Mat score) :
  gt_order gt -> rows scores = 1 -> 1 <= cols scores ->
  pt_y (minMaxLoc gt scores) = 0 /\
  0 <= pt_x (minMaxLoc gt scores) < cols scores /\
  (forall j, 0 <= j < cols scores ->
             gt (px scores 0 j) (px scores 0 (pt_x (minMaxLoc gt scores)))
             = false) /\
  (forall j, 0 <= j < pt_x (minMaxLoc gt scores) ->
             gt (px scores 0 (pt_x (minMaxLoc gt scores))) (px scores 0 j)
             = true) /\
  (forall scores',
      rows scores' = rows scores -> cols scores' = cols scores ->
      (forall y x, px scores' y x = px scores y x) ->
      minMaxLoc gt scores' = minMaxLoc gt scores).
Proof.
  intros Hgt Hr Hc.
  destruct (minMaxLoc_row score gt Hgt scores Hr Hc) as [k [E [Hk [Hmax Hfirst]]]].
  rewrite E. simpl. repeat split; try lia; auto.
  intros scores' Er Ec Epx. rewrite <- E. now apply minMaxLoc_ext.
Qed.

Lemma C4_witness :
  pt_y (minMaxLoc Z.gtb tied_row) = 0 /\
  0 <= pt_x (minMaxLoc Z.gtb tied_row) < cols tied_row /\
  (forall j, 0 <= j < cols tied_row ->
             (px tied_row 0 j >? px tied_row 0 (pt_x (minMaxLoc Z.gtb tied_row)))
             = false) /\
  (forall j, 0 <= j < pt_x (minMaxLoc Z.gtb tied_row) ->
             (px tied_row 0 (pt_x (minMaxLoc Z.gtb tied_row)) >? px tied_row 0 j)
             = true) /\
  (forall scores',
      rows scores' = rows tied_row -> cols scores' = cols tied_row ->
      (forall y x, px scores' y x = px tied_row y x) ->
      minMaxLoc Z.gtb scores' = minMaxLoc Z.gtb tied_row).
Proof.
  apply (C4_selector_first_maximum Z Z.gtb tied_row).
  - exact Zgtb_order.
  - reflexivity.
  - vm_compute. discriminate.
Defined.

(** ** C5 *)



(** ** C6 *)

(** C6: at every eligible coordinate (x, y) the rectangle of the strip has
    origin (x - w - maxdisp, y - w), width [blocksize + numdisp] and height
    [blocksize]; the strip taken from the right grid has that size and
    reads the right grid from that origin; [blocksize = 2w+1] and
    [numdisp = maxdisp - mindisp]. *)
Theorem C6_search_strip_geometry
        (limg rimg : Mat Z) (numdisp mindisp blocksize y x : Z) :
  grid_ok limg -> rows rimg = rows limg -> cols rimg = cols limg ->
  params_ok numdisp mindisp blocksize ->
  eligible (rows limg) (cols limg) (blocksize / 2) (numdisp + mindisp) mindisp
           y x ->
  slice numdisp mindisp blocksize x y
  = mkRect (x - blocksize / 2 - (numdisp + mindisp)) (y - blocksize / 2)
           (blocksize + numdisp) blocksize /\
  (exists strip,
      roi rimg (slice numdisp mindisp blocksize x y) = Ok strip /\
      cols strip = blocksize + numdisp /\ rows strip = blocksize /\
      forall i j,
        px strip i j
        = px rimg (y - blocksize / 2 + i)
                  (x - blocksize / 2 - (numdisp + mindisp) + j)) /\
  blocksize = 2 * (blocksize / 2) + 1 /\
  numdisp = maxdisp numdisp mindisp - mindisp.
Proof.
  intros Hg Er Ec Hp He.
  pose proof Hp as (Hn & Hm & Hb & Hodd & Hmax).
  rewrite <- (w_div blocksize ltac:(lia)) in *.
  destruct (w_half blocksize Hb Hodd) as [Ew Hw].
  pose proof (slice_eligible (rows limg) (cols limg) numdisp mindisp blocksize
                             x y (proj1 Hg) (proj2 Hg) Hp He) as Es.
  split; [exact Es|]. split; [|split; [exact Ew|]].
  - unfold roi.
    assert (Hs : rect_inside (slice numdisp mindisp blocksize x y) rimg = true).
    { rewrite Es. apply rect_inside_iff. simpl. rewrite Er, Ec.
      destruct He as [Hy Hx]. unfold is_unsigned in Hn. lia. }
    rewrite Hs, Es. eexists. split; [reflexivity|]. simpl. auto.
  - rewrite (maxdisp_exact numdisp mindisp Hn Hm Hmax). lia.
Qed.

Lemma C6_witness :
  slice 2 0 3 4 2 = mkRect (4 - 3 / 2 - (2 + 0)) (2 - 3 / 2) (3 + 2) 3 /\
  (exists strip,
      roi (textured 6 8) (slice 2 0 3 4 2) = Ok strip /\
      cols strip = 3 + 2 /\ rows strip = 3 /\
      forall i j,
        px strip i j
        = px (textured 6 8) (2 - 3 / 2 + i) (4 - 3 / 2 - (2 + 0) + j)) /\
  3 = 2 * (3 / 2) + 1 /\
  2 = maxdisp 2 0 - 0.
Proof.
  apply (C6_search_strip_geometry (textured 6 8) (textured 6 8) 2 0 3 2 4).
  - unfold grid_ok. closed_facts.
  - reflexivity.
  - reflexivity.
  - unfold params_ok, is_int, is_unsigned. closed_facts.
  - unfold eligible. closed_facts.
Defined.

(** ** C7 *)

(** C7 fails on the code: with [mindisp = 2], [numdisp = 0] and
    [blocksize = 1] on two 2 x 2 grids the loop bounds generate the
    coordinate (y, x) = (0, 2); its strip lies inside the right grid, its
    block starts at column 2 of the 2 columns of the left grid, and the
    extraction fails with the assertion of [roi], whatever the scorer and
    the content of the output buffer. *)
Theorem C7_block_leaves_left_grid
        (score : Type) (gt : score -> score -> bool)
        (matchTemplate : Mat Z -> Mat Z -> result (Mat score))
        (garbage : Z -> Z -> Z) :
  In (0, 2) (loop_counters (flat 2 2 1) 0 2 1) /\
  rect_inside (slice 0 2 1 2 0) (flat 2 2 1) = true /\
  block 1 2 0 = mkRect 2 0 1 1 /\
  rect_inside (block 1 2 0) (flat 2 2 1) = false /\
  compute_dispmap gt matchTemplate (flat 2 2 1) (flat 2 2 1) 0 2 1 garbage
  = Err CvAssert.
Proof.
  split; [vm_compute; left; reflexivity|].
  split; [vm_compute; reflexivity|].
  split; [vm_compute; reflexivity|].
  split; [vm_compute; reflexivity|apply mindisp2_run].
Qed.

(** ** C10 *)

(** C10: in the regime where the engine ends normally, the cell of every
    eligible coordinate holds the selected index reduced modulo 256; the
    index lies in [0, numdisp], and the cell equals it exactly when it is at
    most 255.  No bound on [numdisp] below the range of [unsigned] is
    assumed. *)
Theorem C10_cell_is_index_mod_256
        (score : Type) (gt : score -> score -> bool)
        (matchTemplate : Mat Z -> Mat Z -> result (Mat score))
        (limg rimg : Mat Z) (numdisp mindisp blocksize : Z)
        (garbage : Z -> Z -> Z) :
  engine_regime limg rimg numdisp mindisp blocksize ->
  matchTemplate_sized matchTemplate ->
  exists st,
    compute_dispmap gt matchTemplate limg rimg numdisp mindisp blocksize garbage
    = Ok st /\
    forall y x,
      eligible (rows limg) (cols limg) (blocksize / 2) (numdisp + mindisp)
               mindisp y x ->
      exists k,
        best_index gt matchTemplate limg rimg numdisp mindisp blocksize x y
        = Ok k /\
        0 <= k <= numdisp /\
        px (dispmap st) y x = k mod 256 /\
        (px (dispmap st) y x = k <-> k <= 255).
Proof.
  intros Hreg Hmt.
  destruct (engine_total score gt matchTemplate limg rimg numdisp mindisp
                         blocksize garbage Hreg Hmt)
    as [st (E & _ & _ & _ & Hin & _)].
  assert (Ew : w blocksize = blocksize / 2).
  { apply w_div. destruct Hreg as (_ & _ & _ & (_ & _ & Hb & _) & _). lia. }
  assert (Hn : 0 <= numdisp).
  { destruct Hreg as (_ & _ & _ & ([Hn _] & _) & _). exact Hn. }
  rewrite Ew in Hin. exists st. split; [exact E|].
  intros y x He. destruct (Hin y x He) as [scores (En & Hsr & Hsc & Hpx)].
  exists (pt_x (minMaxLoc gt scores)).
  split; [now apply best_index_nccs|].
  destruct (minMaxLoc_range gt scores) as [Hk _]; try lia.
  split; [lia|]. split; [exact Hpx|].
  rewrite Hpx. change (?z mod 256) with (to_uchar z).
  rewrite to_uchar_id_iff. lia.
Qed.

Lemma C10_witness :
  exists st,
    compute_dispmap Exact.gt Exact.matchTemplate spike spike 256 0 1 stale
    = Ok st /\
    forall y x,
      eligible (rows spike) (cols spike) (1 / 2) (256 + 0) 0 y x ->
      exists k,
        best_index Exact.gt Exact.matchTemplate spike spike 256 0 1 x y = Ok k /\
        0 <= k <= 256 /\
        px (dispmap st) y x = k mod 256 /\
        (px (dispmap st) y x = k <-> k <= 255).
Proof.
  apply (C10_cell_is_index_mod_256 Q Exact.gt Exact.matchTemplate
           spike spike 256 0 1 stale).
  - unfold engine_regime, params_ok, grid_ok, is_int, is_unsigned. closed_facts.
  - exact Exact_matchTemplate_sized.
Defined.

(** * Further properties of the engine *)

(** ** The counters as machine values *)

Lemma row_counters_unsigned (limg : Mat Z) (blocksize y : Z) :
  In y (row_counters limg blocksize) ->
  is_unsigned y /\ w blocksize <= y < to_unsigned (rows limg - w blocksize - 1).
Proof.
  unfold row_counters. intros H. apply in_seqZ in H.
  unfold is_unsigned, w in *. wrap. lia.
Qed.

Lemma col_counters_unsigned (limg : Mat Z) (numdisp mindisp blocksize c : Z) :
  In c (col_counters limg numdisp mindisp blocksize) ->
  is_unsigned c /\
  to_unsigned (to_int (to_unsigned (maxdisp numdisp mindisp + w blocksize)))
  <= c < to_unsigned (cols limg + mindisp - w blocksize - 1).
Proof.
  unfold col_counters. intros H. apply in_seqZ in H.
  unfold is_unsigned in *.
  revert H. generalize (maxdisp numdisp mindisp + w blocksize).
  generalize (cols limg + mindisp - w blocksize - 1). intros B S H.
  wrap. lia.
Qed.

Lemma to_int_inj (a b : Z) :
  is_unsigned a -> is_unsigned b -> to_int a = to_int b -> a = b.
Proof. intros. wrap. lia. Qed.

(** Reading the counters as [int] does not identify two of them. *)
Lemma cell_inj_on_counters (limg : Mat Z) (numdisp mindisp blocksize : Z)
      (p q : Z * Z) :
  In p (loop_counters limg numdisp mindisp blocksize) ->
  In q (loop_counters limg numdisp mindisp blocksize) ->
  cell p = cell q -> p = q.
Proof.
  destruct p as [y c], q as [y' c']. intros Hp Hq E.
  apply in_loop_counters in Hp, Hq.
  destruct Hp as [Hy Hc], Hq as [Hy' Hc'].
  apply row_counters_unsigned in Hy, Hy'.
  apply col_counters_unsigned in Hc, Hc'.
  unfold cell in E. simpl in E. injection E as Ey Ec.
  f_equal; apply to_int_inj; tauto.
Qed.

Lemma seqZ_NoDup (a : Z) (n : nat) : NoDup (seqZ a n).
Proof.
  unfold seqZ. apply NoDup_map_NoDup_ForallPairs; [|apply seq_NoDup].
  intros i j _ _ E. lia.
Qed.

Lemma pairs_NoDup {I J : Type} (ls : list I) (cs : list J) :
  NoDup ls -> NoDup cs -> NoDup (flat_map (fun i => map (pair i) cs) ls).
Proof.
  intros Hl Hc. induction Hl as [|i ls Hi Hl IH]; simpl; [constructor|].
  apply NoDup_app.
  - apply NoDup_map_NoDup_ForallPairs; [|exact Hc].
    intros c c' _ _ E. now injection E.
  - exact IH.
  - intros p Hp Hq. apply in_map_iff in Hp. destruct Hp as [c [<- _]].
    apply in_flat_map in Hq. destruct Hq as [i' [Hi' Hq]].
    apply in_map_iff in Hq. destruct Hq as [c' [E _]].
    injection E as -> _. contradiction.
Qed.

Lemma loop_counters_NoDup (limg : Mat Z) (numdisp mindisp blocksize : Z) :
  NoDup (map cell (loop_counters limg numdisp mindisp blocksize)).
Proof.
  apply NoDup_map_NoDup_ForallPairs.
  - intros p q Hp Hq.
    now apply (cell_inj_on_counters limg numdisp mindisp blocksize).
  - apply pairs_NoDup; apply seqZ_NoDup.
Qed.

(** From [H : best_index ... = Ok k] to the two extractions it went
    through. *)
Ltac inside_of H :=
  apply (best_index_Ok_inside _ _ _ _ _ _ _ _ (fun _ _ => 0)) in H.

(** ** X1: the unchecked store stays inside the grid *)



(** ** X2: no cell is stored twice *)

(** X2: in a run that returns, the stored cells are pairwise distinct: the
    nested loops reach every coordinate once, and reading the unsigned
    counters as [int] does not map two of them to one cell. *)
Theorem X2_each_cell_stored_once
        (score : Type) (gt : score -> score -> bool)
        (matchTemplate : Mat Z -> Mat Z -> result (Mat score))
        (limg rimg : Mat Z) (numdisp mindisp blocksize : Z)
        (garbage : Z -> Z -> Z) (st : engine_state) :
  compute_dispmap gt matchTemplate limg rimg numdisp mindisp blocksize garbage
  = Ok st ->
  NoDup (visited st).
Proof.
  intros Hrun. rewrite compute_dispmap_run_over in Hrun.
  apply run_over_Ok in Hrun. destruct Hrun as (_ & _ & Hv & _).
  simpl in Hv. rewrite Hv. apply loop_counters_NoDup.
Qed.

Lemma X2_witness :
  exists st,
    compute_dispmap Exact.gt Exact.matchTemplate (textured 6 8) (textured 6 8)
                    2 0 3 stale = Ok st /\
    NoDup (visited st).
Proof.
  eexists. split; [vm_compute; reflexivity|].
  apply (X2_each_cell_stored_once Q Exact.gt Exact.matchTemplate
           (textured 6 8) (textured 6 8) 2 0 3 stale).
  vm_compute. reflexivity.
Defined.

(** ** X3: the result does not depend on the uninitialised buffer *)

(** X3: two invocations that differ only in what the freshly allocated
    buffer holds end the same way: both fail with the same error, or both
    return, having stored the same cells in the same order with the same
    values. *)
Theorem X3_buffer_content_is_irrelevant
        (score : Type) (gt : score -> score -> bool)
        (matchTemplate : Mat Z -> Mat Z -> result (Mat score))
        (limg rimg : Mat Z) (numdisp mindisp blocksize : Z)
        (garbage1 garbage2 : Z -> Z -> Z) :
  match compute_dispmap gt matchTemplate limg rimg numdisp mindisp blocksize
                        garbage1,
        compute_dispmap gt matchTemplate limg rimg numdisp mindisp blocksize
                        garbage2
  with
  | Ok st1, Ok st2 =>
      visited st1 = visited st2 /\
      forall r c, In (r, c) (visited st1) ->
                  px (dispmap st1) r c = px (dispmap st2) r c
  | Err e1, Err e2 => e1 = e2
  | _, _ => False
  end.
Proof.
  rewrite !compute_dispmap_run_over.
  set (l := loop_counters limg numdisp mindisp blocksize).
  set (s1 := mkState (alloc limg garbage1) []).
  set (s2 := mkState (alloc limg garbage2) []).
  assert (Hsame : forall s t s',
             run_over (fun p => pixel gt matchTemplate limg rimg numdisp mindisp
                                      blocksize (fst p) (to_int (snd p))) l s
             = Ok s' ->
             exists t',
               run_over (fun p => pixel gt matchTemplate limg rimg numdisp
                                        mindisp blocksize (fst p)
                                        (to_int (snd p))) l t = Ok t').
  { intros s t s' H. apply run_over_Ok in H.
    destruct H as (_ & _ & _ & Hall & _). now apply run_over_total. }
  destruct (run_over _ l s1) as [st1|e1] eqn:E1;
    destruct (run_over _ l s2) as [st2|e2] eqn:E2.
  - apply run_over_Ok in E1, E2.
    destruct E1 as (_ & _ & Hv1 & _ & Hin1 & _).
    destruct E2 as (_ & _ & Hv2 & _ & Hin2 & _).
    simpl in Hv1, Hv2. split; [now rewrite Hv1, Hv2|].
    intros r c Hrc. rewrite Hv1 in Hrc.
    destruct (Hin1 r c Hrc) as [p1 [k1 (Hp1 & Ec1 & Ek1 & Epx1)]].
    destruct (Hin2 r c Hrc) as [p2 [k2 (Hp2 & Ec2 & Ek2 & Epx2)]].
    assert (Ep : p1 = p2).
    { apply (cell_inj_on_counters limg numdisp mindisp blocksize);
        [exact Hp1|exact Hp2|now rewrite Ec1, Ec2]. }
    subst p2. rewrite Ek1 in Ek2. injection Ek2 as <-.
    now rewrite Epx1, Epx2.
  - destruct (Hsame s1 s2 st1 E1) as [t' Ht]. rewrite Ht in E2. discriminate.
  - destruct (Hsame s2 s1 st2 E2) as [t' Ht]. rewrite Ht in E1. discriminate.
  - now destruct e1, e2.
Qed.

(** ** X4: what a returning run has stored, for any parameters *)



(** ** The wider regime *)

Lemma loop_counters_wide (limg rimg : Mat Z) (numdisp mindisp blocksize : Z) :
  wide_regime limg rimg numdisp mindisp blocksize ->
  loop_counters limg numdisp mindisp blocksize
  = eligible_coords (rows limg) (cols limg) (w blocksize)
                    (numdisp + mindisp) mindisp.
Proof.
  intros ([Hr Hc] & _ & _ & Hn & Hm & Hb & Hmax & H1 & Hwr & Hwc).
  destruct (w_bounds blocksize ltac:(lia)) as [Hw Ew].
  unfold loop_counters, eligible_coords, row_counters, col_counters, interval.
  rewrite (maxdisp_exact numdisp mindisp Hn Hm ltac:(lia)).
  rewrite to_unsigned_to_int.
  unfold is_unsigned, is_int, UINT_MAX, INT_MAX, INT_MIN in *.
  rewrite !(to_unsigned_id (numdisp + mindisp + w blocksize))
    by (unfold UINT_MAX; lia).
  rewrite (to_unsigned_id (cols limg + mindisp - w blocksize - 1))
    by (unfold UINT_MAX; lia).
  rewrite (to_unsigned_id (rows limg - w blocksize - 1))
    by (unfold UINT_MAX; lia).
  replace (rows limg - w blocksize - 2 - w blocksize + 1)
    with (rows limg - w blocksize - 1 - w blocksize) by lia.
  replace (cols limg + mindisp - w blocksize - 2
           - (numdisp + mindisp + w blocksize) + 1)
    with (cols limg + mindisp - w blocksize - 1
          - (numdisp + mindisp + w blocksize)) by lia.
  reflexivity.
Qed.

(** Block and strip at an eligible coordinate, for a block size of either
    parity: the strip is [2w + 1] high and [2w + 1 + numdisp] wide whatever
    the block size. *)
Lemma rects_wide (limg rimg : Mat Z) (numdisp mindisp blocksize y x : Z) :
  wide_regime limg rimg numdisp mindisp blocksize ->
  eligible (rows limg) (cols limg) (w blocksize) (numdisp + mindisp) mindisp
           y x ->
  block blocksize x y
  = mkRect (x - w blocksize) (y - w blocksize) blocksize blocksize /\
  rect_inside (block blocksize x y) limg = true /\
  slice numdisp mindisp blocksize x y
  = mkRect (x - w blocksize - (numdisp + mindisp)) (y - w blocksize)
           (2 * w blocksize + 1 + numdisp) (2 * w blocksize + 1) /\
  rect_inside (slice numdisp mindisp blocksize x y) rimg = true.
Proof.
  intros ([Hr Hc] & Hrr & Hrc & Hn & Hm & Hb & Hmax & H1 & Hwr & Hwc) [Hy Hx].
  destruct (w_bounds blocksize ltac:(lia)) as [Hw Ew].
  assert (Eb : block blocksize x y
               = mkRect (x - w blocksize) (y - w blocksize) blocksize blocksize).
  { unfold block, Rect_size. simpl.
    revert Hy Hx. generalize (w blocksize) Ew Hw. intros hw Ehw Hhw Hy Hx.
    f_equal; wrap; lia. }
  assert (Es : slice numdisp mindisp blocksize x y
               = mkRect (x - w blocksize - (numdisp + mindisp))
                        (y - w blocksize)
                        (2 * w blocksize + 1 + numdisp) (2 * w blocksize + 1)).
  { unfold slice. rewrite (maxdisp_exact numdisp mindisp Hn Hm ltac:(lia)).
    revert Hy Hx. generalize (w blocksize) Ew Hw. intros hw Ehw Hhw Hy Hx.
    assert (E1 : to_int (to_unsigned (x - hw - (numdisp + mindisp)))
                 = x - hw - (numdisp + mindisp)) by (wrap; lia).
    assert (E2 : to_int (to_unsigned (y - hw)) = y - hw) by (wrap; lia).
    assert (E3 : to_int (to_unsigned (x + hw + 1 - mindisp))
                 = x + hw + 1 - mindisp) by (wrap; lia).
    assert (E4 : to_int (to_unsigned (y + hw + 1)) = y + hw + 1)
      by (wrap; lia).
    rewrite E1, E2, E3, E4. unfold Rect_pts. cbn [pt_x pt_y].
    unfold is_unsigned, is_int, INT_MAX, INT_MIN, UINT_MAX in *.
    rewrite !Z.min_l, !Z.max_r by lia.
    f_equal; rewrite to_int_id; unfold INT_MIN, INT_MAX; lia. }
  split; [exact Eb|]. split; [|split; [exact Es|]].
  - rewrite Eb. apply rect_inside_iff. simpl. unfold INT_MAX in *. lia.
  - rewrite Es. apply rect_inside_iff. cbn [rc_x rc_y rc_width rc_height].
    unfold is_unsigned, INT_MAX in *. lia.
Qed.

Lemma nccs_wide {score : Type}
      (matchTemplate : Mat Z -> Mat Z -> result (Mat score))
      (limg rimg : Mat Z) (numdisp mindisp blocksize y x : Z) :
  wide_regime limg rimg numdisp mindisp blocksize ->
  matchTemplate_sized matchTemplate ->
  eligible (rows limg) (cols limg) (w blocksize) (numdisp + mindisp) mindisp
           y x ->
  exists scores,
    nccs matchTemplate limg rimg numdisp mindisp blocksize x y = Ok scores /\
    rows scores = 2 * w blocksize + 2 - blocksize /\
    cols scores = numdisp + 2 * w blocksize + 2 - blocksize.
Proof.
  intros Hreg Hmt He.
  destruct (rects_wide limg rimg numdisp mindisp blocksize y x Hreg He)
    as (Eb & Hb & Es & Hs).
  destruct Hreg as (_ & _ & _ & Hn & _ & Hbs & _).
  destruct (w_bounds blocksize ltac:(lia)) as [Hw Ew].
  unfold nccs, roi. rewrite Hb, Hs, Es, Eb.
  cbn [bind rc_x rc_y rc_width rc_height].
  match goal with |- context [matchTemplate ?i ?t] =>
    destruct (Hmt i t) as [r [E [Hr Hc]]] end.
  - cbn [rows cols]. lia.
  - cbn [rows cols]. unfold is_unsigned in Hn. lia.
  - exists r. split; [exact E|]. cbn [rows cols] in Hr, Hc. lia.
Qed.

(** ** X5: the size of the score matrix, for odd and even block sizes *)

(** X5: at every eligible coordinate of the wider regime the scorer is
    called with a strip of [2w + 1] rows and a block of [blocksize] rows.
    For an odd block size it returns one row of [numdisp + 1] scores and
    the selected index lies in [0, numdisp]; for an even block size, which
    the program accepts, it returns two rows of [numdisp + 2] scores, and
    the selected index may be [numdisp + 1]. *)
Theorem X5_score_matrix_shape
        (score : Type) (gt : score -> score -> bool)
        (matchTemplate : Mat Z -> Mat Z -> result (Mat score))
        (limg rimg : Mat Z) (numdisp mindisp blocksize y x : Z) :
  wide_regime limg rimg numdisp mindisp blocksize ->
  matchTemplate_sized matchTemplate ->
  eligible (rows limg) (cols limg) (blocksize / 2) (numdisp + mindisp) mindisp
           y x ->
  exists scores k,
    nccs matchTemplate limg rimg numdisp mindisp blocksize x y = Ok scores /\
    rows scores = (if Z.odd blocksize then 1 else 2) /\
    cols scores = numdisp + (if Z.odd blocksize then 1 else 2) /\
    best_index gt matchTemplate limg rimg numdisp mindisp blocksize x y
    = Ok k /\
    0 <= k < cols scores.
Proof.
  intros Hreg Hmt He.
  pose proof Hreg as (_ & _ & _ & Hn & _ & Hb & _).
  rewrite <- (w_div blocksize ltac:(lia)) in He.
  destruct (nccs_wide matchTemplate limg rimg numdisp mindisp blocksize y x
                      Hreg Hmt He) as [scores (En & Hr & Hc)].
  destruct (w_bounds blocksize ltac:(lia)) as [Hw Ew].
  assert (Hpar : 2 * w blocksize + 2 - blocksize
                 = if Z.odd blocksize then 1 else 2).
  { destruct (Z.odd blocksize) eqn:Hodd.
    - apply Z.odd_spec in Hodd. destruct Hodd as [m Hm]. lia.
    - rewrite <- Z.negb_even in Hodd. apply negb_false_iff in Hodd.
      apply Z.even_spec in Hodd. destruct Hodd as [m Hm]. lia. }
  exists scores, (pt_x (minMaxLoc gt scores)).
  split; [exact En|]. split; [lia|]. split; [lia|].
  split; [now apply best_index_nccs|].
  unfold is_unsigned in Hn.
  destruct (minMaxLoc_range gt scores) as [Hk _]; [lia|lia|exact Hk].
Qed.

Lemma X5_witness :
  exists scores k,
    nccs Exact.matchTemplate (textured 6 8) (textured 6 8) 2 0 2 4 2
    = Ok scores /\
    rows scores = (if Z.odd 2 then 1 else 2) /\
    cols scores = 2 + (if Z.odd 2 then 1 else 2) /\
    best_index Exact.gt Exact.matchTemplate (textured 6 8) (textured 6 8)
               2 0 2 4 2 = Ok k /\
    0 <= k < cols scores.
Proof.
  apply (X5_score_matrix_shape Q Exact.gt Exact.matchTemplate
           (textured 6 8) (textured 6 8) 2 0 2 2 4).
  - unfold wide_regime, grid_ok, is_int, is_unsigned. closed_facts.
  - exact Exact_matchTemplate_sized.
  - unfold eligible. closed_facts.
Defined.

(** ** X6: the engine returns in the wider regime *)

(** X6: the engine also returns when the block size is even and when the
    right grid is larger than the left one or smaller by at most one row
    and one column: for well-typed parameters with
    [0 <= numdisp + mindisp <= INT_MAX], [mindisp <= 1] and [blocksize / 2]
    below [rows] and below [cols + mindisp] it goes over the eligible
    coordinates in row-major order, stores at each the index selected
    there modulo 256, and leaves the other cells as allocated. *)
Theorem X6_engine_returns_in_wide_regime
        (score : Type) (gt : score -> score -> bool)
        (matchTemplate : Mat Z -> Mat Z -> result (Mat score))
        (limg rimg : Mat Z) (numdisp mindisp blocksize : Z)
        (garbage : Z -> Z -> Z) :
  wide_regime limg rimg numdisp mindisp blocksize ->
  matchTemplate_sized matchTemplate ->
  exists st,
    compute_dispmap gt matchTemplate limg rimg numdisp mindisp blocksize garbage
    = Ok st /\
    visited st = eligible_coords (rows limg) (cols limg) (blocksize / 2)
                                 (numdisp + mindisp) mindisp /\
    (forall y x,
        eligible (rows limg) (cols limg) (blocksize / 2) (numdisp + mindisp)
                 mindisp y x ->
        exists k,
          best_index gt matchTemplate limg rimg numdisp mindisp blocksize x y
          = Ok k /\
          px (dispmap st) y x = k mod 256) /\
    (forall y x,
        ~ eligible (rows limg) (cols limg) (blocksize / 2) (numdisp + mindisp)
                   mindisp y x ->
        px (dispmap st) y x = garbage y x).
Proof.
  intros Hreg Hmt.
  pose proof (loop_counters_wide _ _ _ _ _ Hreg) as El.
  pose proof Hreg as ([Hr Hc] & _ & _ & Hn & Hm & Hb & Hmax & H1 & _ & _).
  destruct (w_bounds blocksize ltac:(lia)) as [Hw Ew].
  rewrite <- (w_div blocksize ltac:(lia)).
  assert (Hcell : forall p,
             In p (loop_counters limg numdisp mindisp blocksize) ->
             cell p = p).
  { intros [y x] Hp. rewrite El in Hp. apply in_eligible_coords in Hp.
    destruct Hp as [Hy Hx]. unfold cell. cbn [fst snd].
    unfold INT_MAX in *.
    rewrite !to_int_id by (unfold INT_MIN, INT_MAX; lia). reflexivity. }
  assert (Hmap : map cell (loop_counters limg numdisp mindisp blocksize)
                 = loop_counters limg numdisp mindisp blocksize).
  { rewrite <- (map_id (loop_counters _ _ _ _)) at 2.
    apply map_ext_in. exact Hcell. }
  assert (Hidx : forall y x,
             eligible (rows limg) (cols limg) (w blocksize)
                      (numdisp + mindisp) mindisp y x ->
             exists k,
               best_index gt matchTemplate limg rimg numdisp mindisp blocksize
                          x y = Ok k).
  { intros y x He.
    destruct (nccs_wide matchTemplate limg rimg numdisp mindisp blocksize y x
                        Hreg Hmt He) as [scores [E _]].
    rewrite (best_index_nccs _ _ _ _ _ _ _ _ _ _ _ E). eauto. }
  assert (Hall : forall p,
             In p (loop_counters limg numdisp mindisp blocksize) ->
             exists k,
               best_index gt matchTemplate limg rimg numdisp mindisp blocksize
                          (to_int (snd p)) (fst p) = Ok k).
  { intros [y x] Hp. pose proof (Hcell _ Hp) as E.
    unfold cell in E. cbn [fst snd] in E. injection E as _ Ex.
    cbn [fst snd]. rewrite Ex.
    rewrite El in Hp. apply in_eligible_coords in Hp. now apply Hidx. }
  destruct (run_over_total score gt matchTemplate limg rimg numdisp mindisp
              blocksize _ Hall (mkState (alloc limg garbage) []))
    as [st Hst].
  exists st. rewrite compute_dispmap_run_over. split; [exact Hst|].
  apply run_over_Ok in Hst.
  destruct Hst as (_ & _ & Hv & _ & Hin & Hout).
  rewrite Hmap in Hv, Hin, Hout. simpl in Hv, Hout.
  split; [now rewrite Hv, El|]. split.
  - intros y x He. destruct (Hidx y x He) as [k Ek].
    exists k. split; [exact Ek|].
    assert (Hp : In (y, x) (loop_counters limg numdisp mindisp blocksize))
      by (rewrite El; now apply in_eligible_coords).
    destruct (Hin y x Hp) as [q [k' [Hq [Eq [Ek' Epx]]]]].
    rewrite (Hcell q Hq) in Eq. subst q. cbn [fst snd] in Ek'.
    pose proof (Hcell _ Hp) as Ec. unfold cell in Ec. cbn [fst snd] in Ec.
    injection Ec as _ Ex. rewrite Ex, Ek in Ek'. injection Ek' as <-.
    exact Epx.
  - intros y x He. apply Hout. rewrite El. now rewrite in_eligible_coords.
Qed.

Lemma X6_witness :
  exists st,
    compute_dispmap Exact.gt Exact.matchTemplate (textured 6 8) (textured 5 7)
                    2 0 4 stale = Ok st /\
    visited st = eligible_coords 6 8 (4 / 2) (2 + 0) 0 /\
    (forall y x,
        eligible 6 8 (4 / 2) (2 + 0) 0 y x ->
        exists k,
          best_index Exact.gt Exact.matchTemplate (textured 6 8) (textured 5 7)
                     2 0 4 x y = Ok k /\
          px (dispmap st) y x = k mod 256) /\
    (forall y x,
        ~ eligible 6 8 (4 / 2) (2 + 0) 0 y x ->
        px (dispmap st) y x = stale y x).
Proof.
  apply (X6_engine_returns_in_wide_regime Q Exact.gt Exact.matchTemplate
           (textured 6 8) (textured 5 7) 2 0 4 stale).
  - unfold wide_regime, grid_ok, is_int, is_unsigned. closed_facts.
  - exact Exact_matchTemplate_sized.
Defined.

(** ** Runs that fail *)

Lemma in_loop_counters_iff (limg : Mat Z) (numdisp mindisp blocksize y c : Z) :
  In (y, c) (loop_counters limg numdisp mindisp blocksize) <->
  (w blocksize <= y < to_unsigned (rows limg - w blocksize - 1) /\
   to_unsigned (to_int (to_unsigned (maxdisp numdisp mindisp + w blocksize)))
   <= c < to_unsigned (cols limg + mindisp - w blocksize - 1)).
Proof.
  rewrite in_loop_counters. unfold row_counters, col_counters.
  rewrite !in_seqZ. lia.
Qed.

(** A run that returns has extracted block and strip at every pair of
    counters of the two loops. *)
Lemma returning_run_extracts {score : Type} (gt : score -> score -> bool)
      (matchTemplate : Mat Z -> Mat Z -> result (Mat score))
      (limg rimg : Mat Z) (numdisp mindisp blocksize : Z)
      (garbage : Z -> Z -> Z) (st : engine_state) (y c : Z) :
  compute_dispmap gt matchTemplate limg rimg numdisp mindisp blocksize garbage
  = Ok st ->
  In (y, c) (loop_counters limg numdisp mindisp blocksize) ->
  rect_inside (block blocksize (to_int c) y) limg = true /\
  rect_inside (slice numdisp mindisp blocksize (to_int c) y) rimg = true.
Proof.
  intros Hrun Hp. rewrite compute_dispmap_run_over in Hrun.
  apply run_over_Ok in Hrun. destruct Hrun as (_ & _ & _ & Hall & _).
  destruct (Hall _ Hp) as [k Ek]. cbn [fst snd] in Ek. inside_of Ek.
  exact Ek.
Qed.

Lemma fails_unless_returns {A : Type} (r : result A) :
  (forall a, r <> Ok a) -> r = Err CvAssert.
Proof.
  intros H. destruct r as [a|e]; [now contradiction (H a)|now destruct e].
Qed.


(** X8: with [-w <= numdisp + mindisp < 0], every invocation whose
    specified range of coordinates is not empty ends in a failed OpenCV
    assertion: at the first column of a row, [x = maxdisp + w < w], the
    block starts at the negative column [x - w]. *)
Theorem X8_negative_maxdisp_fails
        (score : Type) (gt : score -> score -> bool)
        (matchTemplate : Mat Z -> Mat Z -> result (Mat score))
        (limg rimg : Mat Z) (numdisp mindisp blocksize : Z)
        (garbage : Z -> Z -> Z) (y0 x0 : Z) :
  grid_ok limg -> is_unsigned numdisp -> is_int mindisp ->
  1 <= blocksize <= INT_MAX ->
  - w blocksize <= numdisp + mindisp < 0 ->
  eligible (rows limg) (cols limg) (w blocksize) (numdisp + mindisp) mindisp
           y0 x0 ->
  compute_dispmap gt matchTemplate limg rimg numdisp mindisp blocksize garbage
  = Err CvAssert.
Proof.
  intros Hg Hn Hm Hb Hneg [Hy Hx].
  destruct (w_bounds blocksize ltac:(lia)) as [Hw Ew].
  apply fails_unless_returns. intros st Hrun.
  assert (Hmd : maxdisp numdisp mindisp = numdisp + mindisp).
  { apply maxdisp_exact; [exact Hn|exact Hm|]. unfold INT_MAX. lia. }
  assert (Hp : In (y0, numdisp + mindisp + w blocksize)
                  (loop_counters limg numdisp mindisp blocksize)).
  { apply in_loop_counters_iff. rewrite Hmd.
    destruct Hg as [Hr Hc]. revert Hy Hx Hneg.
    generalize (w blocksize) Hw. intros hw Hhw Hy Hx Hneg. wrap. lia. }
  destruct (returning_run_extracts _ _ _ _ _ _ _ _ _ _ _ Hrun Hp)
    as [Hblock _].
  assert (Hint : is_int (to_int (numdisp + mindisp + w blocksize))).
  { destruct (to_int_spec (numdisp + mindisp + w blocksize)) as [? [_ ?]].
    assumption. }
  assert (Hyu : is_unsigned y0).
  { destruct Hg as [Hr Hc]. unfold is_unsigned, UINT_MAX, INT_MAX in *. lia. }
  destruct (block_inside_bounds limg blocksize _ y0 Hg ltac:(lia) Hint Hyu
                                Hblock) as (B1 & _).
  revert B1 Hneg. generalize (w blocksize) Hw. intros hw Hhw B1 Hneg.
  wrap. lia.
Qed.


Lemma X8_witness :
  eligible 7 9 (5 / 2) (1 + (-2)) (-2) 2 1 /\
  compute_dispmap Exact.gt Exact.matchTemplate (textured 7 9) (textured 7 9)
                  1 (-2) 5 stale = Err CvAssert.
Proof.
  split; [vm_compute; repeat split; discriminate|].
  apply (X8_negative_maxdisp_fails Q Exact.gt Exact.matchTemplate
           (textured 7 9) (textured 7 9) 1 (-2) 5 stale 2 1).
  - unfold grid_ok. closed_facts.
  - unfold is_unsigned. closed_facts.
  - unfold is_int. closed_facts.
  - unfold INT_MAX. lia.
  - closed_facts.
  - closed_facts.
Defined.

(** X9: when [numdisp + mindisp + w] is negative while
    [cols + mindisp - w - 1] is not, the [int] start column [x] of line 87
    is compared as an unsigned value, 2^32 more, with the bound of line 88:
    the inner loop is never entered.  The invocation returns the grid as
    allocated with no cell stored, whether or not the range of coordinates
    is empty. *)
Theorem X9_negative_start_column_stores_nothing
        (score : Type) (gt : score -> score -> bool)
        (matchTemplate : Mat Z -> Mat Z -> result (Mat score))
        (limg rimg : Mat Z) (numdisp mindisp blocksize : Z)
        (garbage : Z -> Z -> Z) :
  grid_ok limg -> is_unsigned numdisp -> is_int mindisp ->
  1 <= blocksize <= INT_MAX ->
  numdisp + mindisp + w blocksize < 0 ->
  w blocksize < cols limg + mindisp ->
  exists st,
    compute_dispmap gt matchTemplate limg rimg numdisp mindisp blocksize garbage
    = Ok st /\
    visited st = [] /\
    rows (dispmap st) = rows limg /\ cols (dispmap st) = cols limg /\
    forall y x, px (dispmap st) y x = garbage y x.
Proof.
  intros [Hr Hc] Hn Hm Hb Hneg Hwc.
  destruct (w_bounds blocksize ltac:(lia)) as [Hw Ew].
  assert (Hmd : maxdisp numdisp mindisp = numdisp + mindisp).
  { apply maxdisp_exact; [exact Hn|exact Hm|]. unfold INT_MAX. lia. }
  assert (El : loop_counters limg numdisp mindisp blocksize = []).
  { unfold loop_counters, col_counters. rewrite Hmd.
    replace (Z.to_nat _) with O; [apply flat_map_no_columns|].
    revert Hneg Hwc. generalize (w blocksize) Hw. intros hw Hhw Hneg Hwc.
    wrap. lia. }
  exists (mkState (alloc limg garbage) []).
  rewrite compute_dispmap_run_over, El. simpl. repeat split.
Qed.

Lemma X9_witness :
  eligible 7 9 (5 / 2) (1 + (-4)) (-4) 2 0 /\
  exists st,
    compute_dispmap Exact.gt Exact.matchTemplate (textured 7 9) (textured 7 9)
                    1 (-4) 5 stale = Ok st /\
    visited st = [] /\
    rows (dispmap st) = 7 /\ cols (dispmap st) = 9 /\
    forall y x, px (dispmap st) y x = stale y x.
Proof.
  split; [closed_facts|].
  apply (X9_negative_start_column_stores_nothing Q Exact.gt Exact.matchTemplate
           (textured 7 9) (textured 7 9) 1 (-4) 5 stale).
  - unfold grid_ok. closed_facts.
  - unfold is_unsigned. closed_facts.
  - unfold is_int. closed_facts.
  - closed_facts.
  - vm_compute. reflexivity.
  - vm_compute. reflexivity.
Defined.

(** X10: a left grid with at most [w = blocksize / 2] rows does not make
    the outer loop empty: [rows - w - 1] is negative and, as the unsigned
    bound of line 86, close to 2^32.  Whenever the column range is not
    empty the first block, of [blocksize > rows] rows, is refused and the
    invocation ends in a failed OpenCV assertion. *)
Theorem X10_short_left_grid_fails
        (score : Type) (gt : score -> score -> bool)
        (matchTemplate : Mat Z -> Mat Z -> result (Mat score))
        (limg rimg : Mat Z) (numdisp mindisp blocksize : Z)
        (garbage : Z -> Z -> Z) :
  grid_ok limg -> is_unsigned numdisp -> is_int mindisp ->
  1 <= blocksize <= INT_MAX ->
  0 <= numdisp + mindisp <= INT_MAX ->
  rows limg <= w blocksize ->
  numdisp + mindisp + w blocksize <= cols limg + mindisp - w blocksize - 2 ->
  compute_dispmap gt matchTemplate limg rimg numdisp mindisp blocksize garbage
  = Err CvAssert.
Proof.
  intros [Hr Hc] Hn Hm Hb Hmax Hrows Hx.
  destruct (w_bounds blocksize ltac:(lia)) as [Hw Ew].
  apply fails_unless_returns. intros st Hrun.
  assert (Hmd : maxdisp numdisp mindisp = numdisp + mindisp).
  { apply maxdisp_exact; [exact Hn|exact Hm|lia]. }
  assert (Hp : In (w blocksize, numdisp + mindisp + w blocksize)
                  (loop_counters limg numdisp mindisp blocksize)).
  { apply in_loop_counters_iff. rewrite Hmd.
    revert Hrows Hx. generalize (w blocksize) Hw. intros hw Hhw Hrows Hx.
    wrap. lia. }
  destruct (returning_run_extracts _ _ _ _ _ _ _ _ _ _ _ Hrun Hp)
    as [Hblock _].
  apply rect_inside_iff in Hblock. unfold block, Rect_size in Hblock.
  cbn [rc_x rc_y rc_width rc_height pt_x pt_y] in Hblock.
  lia.
Qed.

Lemma X10_witness :
  compute_dispmap Exact.gt Exact.matchTemplate (textured 2 9) (textured 2 9)
                  1 0 5 stale = Err CvAssert.
Proof.
  apply (X10_short_left_grid_fails Q Exact.gt Exact.matchTemplate
           (textured 2 9) (textured 2 9) 1 0 5 stale).
  - unfold grid_ok. closed_facts.
  - unfold is_unsigned. closed_facts.
  - unfold is_int. closed_facts.
  - closed_facts.
  - closed_facts.
  - vm_compute. discriminate.
  - vm_compute. discriminate.
Defined.

(** ** Grids that were not read, or do not fit one another *)

(** On a left grid without rows and columns both loop bounds are negative
    and wrap: the loops are entered and the first block is refused. *)
Lemma empty_left_grid_fails {score : Type} (gt : score -> score -> bool)
      (matchTemplate : Mat Z -> Mat Z -> result (Mat score))
      (limg rimg : Mat Z) (numdisp mindisp blocksize : Z)
      (garbage : Z -> Z -> Z) :
  rows limg = 0 -> cols limg = 0 ->
  is_unsigned numdisp -> is_int mindisp -> 1 <= blocksize <= INT_MAX ->
  mindisp <= 0 <= numdisp + mindisp ->
  numdisp + blocksize < UINT_MAX ->
  compute_dispmap gt matchTemplate limg rimg numdisp mindisp blocksize garbage
  = Err CvAssert.
Proof.
  intros Hr Hc Hn Hm Hb Hmd Hsum.
  destruct (w_bounds blocksize ltac:(lia)) as [Hw Ew].
  apply fails_unless_returns. intros st Hrun.
  assert (Hp : In (w blocksize,
                   to_unsigned (to_int (to_unsigned
                     (maxdisp numdisp mindisp + w blocksize))))
                  (loop_counters limg numdisp mindisp blocksize)).
  { apply in_loop_counters_iff. rewrite Hr, Hc. unfold maxdisp.
    revert Hsum. generalize (w blocksize) Hw Ew. intros hw Hhw Ehw Hsum.
    wrap. lia. }
  destruct (returning_run_extracts _ _ _ _ _ _ _ _ _ _ _ Hrun Hp)
    as [Hblock _].
  apply rect_inside_iff in Hblock. unfold block, Rect_size in Hblock.
  cbn [rc_x rc_y rc_width rc_height pt_x pt_y] in Hblock.
  lia.
Qed.

(** When the right grid has fewer than [rows - 1] rows or fewer than
    [cols - 1] columns, the strip of the last coordinate of the range
    leaves it. *)
Lemma small_right_grid_fails {score : Type} (gt : score -> score -> bool)
      (matchTemplate : Mat Z -> Mat Z -> result (Mat score))
      (limg rimg : Mat Z) (numdisp mindisp blocksize : Z)
      (garbage : Z -> Z -> Z) (y0 x0 : Z) :
  grid_ok limg -> is_unsigned numdisp -> is_int mindisp ->
  1 <= blocksize <= INT_MAX ->
  0 <= numdisp + mindisp <= INT_MAX -> mindisp <= 1 ->
  eligible (rows limg) (cols limg) (w blocksize) (numdisp + mindisp) mindisp
           y0 x0 ->
  rows rimg < rows limg - 1 \/ cols rimg < cols limg - 1 ->
  compute_dispmap gt matchTemplate limg rimg numdisp mindisp blocksize garbage
  = Err CvAssert.
Proof.
  intros Hg Hn Hm Hb Hmax H1 [Hy Hx] Hsmall.
  destruct (w_bounds blocksize ltac:(lia)) as [Hw Ew].
  assert (Hwide : wide_regime limg limg numdisp mindisp blocksize).
  { unfold wide_regime, grid_ok. destruct Hg as [Hr Hc].
    unfold is_unsigned, is_int, UINT_MAX, INT_MAX, INT_MIN in *.
    repeat split; lia. }
  apply fails_unless_returns. intros st Hrun.
  set (y1 := rows limg - w blocksize - 2).
  set (x1 := cols limg + mindisp - w blocksize - 2).
  assert (He : eligible (rows limg) (cols limg) (w blocksize)
                        (numdisp + mindisp) mindisp y1 x1).
  { unfold eligible, y1, x1. lia. }
  assert (Hp : In (y1, x1) (loop_counters limg numdisp mindisp blocksize)).
  { rewrite (loop_counters_wide limg limg) by exact Hwide.
    apply in_eligible_coords. exact He. }
  destruct (returning_run_extracts _ _ _ _ _ _ _ _ _ _ _ Hrun Hp)
    as [_ Hslice].
  assert (Ex : to_int x1 = x1).
  { apply to_int_id. destruct Hg as [Hr Hc].
    unfold is_int, INT_MIN, INT_MAX in *. unfold x1. lia. }
  rewrite Ex in Hslice.
  destruct (rects_wide limg limg numdisp mindisp blocksize y1 x1 Hwide He)
    as (_ & _ & Es & _).
  rewrite Es in Hslice. apply rect_inside_iff in Hslice.
  cbn [rc_x rc_y rc_width rc_height] in Hslice.
  unfold y1, x1 in Hslice. lia.
Qed.

(** X11: on an image pair whose left grid has no rows and no columns (what
    [cv::imread] delivers for a file it cannot read), with
    [mindisp <= 0 <= numdisp + mindisp], the engine does not return an
    empty map: both loop bounds wrap, the loops are entered and the
    invocation ends in a failed OpenCV assertion. *)
Theorem X11_empty_left_grid_fails
        (score : Type) (gt : score -> score -> bool)
        (matchTemplate : Mat Z -> Mat Z -> result (Mat score))
        (limg rimg : Mat Z) (numdisp mindisp blocksize : Z)
        (garbage : Z -> Z -> Z) :
  rows limg = 0 -> cols limg = 0 ->
  is_unsigned numdisp -> is_int mindisp -> 1 <= blocksize <= INT_MAX ->
  mindisp <= 0 <= numdisp + mindisp ->
  numdisp + blocksize < UINT_MAX ->
  compute_dispmap gt matchTemplate limg rimg numdisp mindisp blocksize garbage
  = Err CvAssert.
Proof. apply empty_left_grid_fails. Qed.

Lemma X11_witness :
  compute_dispmap Exact.gt Exact.matchTemplate (flat 0 0 0) (textured 6 8)
                  64 0 21 stale = Err CvAssert.
Proof.
  apply (X11_empty_left_grid_fails Q Exact.gt Exact.matchTemplate
           (flat 0 0 0) (textured 6 8) 64 0 21 stale).
  - reflexivity.
  - reflexivity.
  - unfold is_unsigned. closed_facts.
  - unfold is_int. closed_facts.
  - closed_facts.
  - closed_facts.
  - vm_compute. reflexivity.
Defined.

(** X12: for [mindisp <= 1] and [0 <= numdisp + mindisp], when the range of
    coordinates is not empty and the right grid has fewer than [rows - 1]
    rows or fewer than [cols - 1] columns of the left grid, the invocation
    ends in a failed OpenCV assertion: the strip of the last coordinate
    ends at row [rows - 1] and column [cols - 1]. *)
Theorem X12_small_right_grid_fails
        (score : Type) (gt : score -> score -> bool)
        (matchTemplate : Mat Z -> Mat Z -> result (Mat score))
        (limg rimg : Mat Z) (numdisp mindisp blocksize : Z)
        (garbage : Z -> Z -> Z) (y0 x0 : Z) :
  grid_ok limg -> is_unsigned numdisp -> is_int mindisp ->
  1 <= blocksize <= INT_MAX ->
  0 <= numdisp + mindisp <= INT_MAX -> mindisp <= 1 ->
  eligible (rows limg) (cols limg) (w blocksize) (numdisp + mindisp) mindisp
           y0 x0 ->
  rows rimg < rows limg - 1 \/ cols rimg < cols limg - 1 ->
  compute_dispmap gt matchTemplate limg rimg numdisp mindisp blocksize garbage
  = Err CvAssert.
Proof. apply small_right_grid_fails. Qed.

Lemma X12_witness :
  compute_dispmap Exact.gt Exact.matchTemplate (textured 6 8) (textured 6 6)
                  2 0 3 stale = Err CvAssert.
Proof.
  apply (X12_small_right_grid_fails Q Exact.gt Exact.matchTemplate
           (textured 6 8) (textured 6 6) 2 0 3 stale 1 3).
  - unfold grid_ok. closed_facts.
  - unfold is_unsigned. closed_facts.
  - unfold is_int. closed_facts.
  - closed_facts.
  - closed_facts.
  - vm_compute. discriminate.
  - closed_facts.
  - right. vm_compute. reflexivity.
Defined.

(** ** What a column of the score matrix compares *)



(** * The program: [main] and [load_imgs] *)

Lemma wide_regime_returns {score : Type} (gt : score -> score -> bool)
      (matchTemplate : Mat Z -> Mat Z -> result (Mat score))
      (limg rimg : Mat Z) (numdisp mindisp blocksize : Z)
      (garbage : Z -> Z -> Z) :
  wide_regime limg rimg numdisp mindisp blocksize ->
  matchTemplate_sized matchTemplate ->
  exists st,
    compute_dispmap gt matchTemplate limg rimg numdisp mindisp blocksize garbage
    = Ok st.
Proof.
  intros Hreg Hmt.
  pose proof (loop_counters_wide _ _ _ _ _ Hreg) as El.
  pose proof Hreg as ([Hr Hc] & _ & _ & Hn & Hm & Hb & Hmax & H1 & _ & _).
  destruct (w_bounds blocksize ltac:(lia)) as [Hw Ew].
  assert (Hall : forall p,
             In p (loop_counters limg numdisp mindisp blocksize) ->
             exists k,
               best_index gt matchTemplate limg rimg numdisp mindisp blocksize
                          (to_int (snd p)) (fst p) = Ok k).
  { intros [y x] Hp. rewrite El in Hp. apply in_eligible_coords in Hp.
    cbn [fst snd].
    assert (Ex : to_int x = x).
    { destruct Hp as [Hy Hx]. apply to_int_id.
      unfold is_int, INT_MIN, INT_MAX in *. lia. }
    rewrite Ex.
    destruct (nccs_wide matchTemplate limg rimg numdisp mindisp blocksize y x
                        Hreg Hmt Hp) as [scores [E _]].
    rewrite (best_index_nccs _ _ _ _ _ _ _ _ _ _ _ E). eauto. }
  destruct (run_over_total score gt matchTemplate limg rimg numdisp mindisp
              blocksize _ Hall (mkState (alloc limg garbage) []))
    as [st Hst].
  exists st. rewrite compute_dispmap_run_over. exact Hst.
Qed.

(** X14: when the options parse and the left image cannot be read
    ([cv::imread] delivers a matrix without rows and columns), with
    [mindisp <= 0 <= numdisp + mindisp] (the defaults 0 and 64 among them),
    [main] returns [EXIT_FAILURE]: [load_imgs] does not check what it
    read, the engine is entered and its first block is refused.  The right
    image and the display play no part. *)
Theorem X14_unreadable_left_image_exits_with_failure
        (score : Type) (gt : score -> score -> bool)
        (matchTemplate : Mat Z -> Mat Z -> result (Mat score))
        (parse_program_options : list String.string -> Main.parse_result)
        (imread : String.string -> Mat Z)
        (show_dispmap : Mat Z -> result unit)
        (garbage : Z -> Z -> Z)
        (argv : list String.string) (opts : Main.program_options_t) :
  parse_program_options argv = Main.Parsed opts ->
  rows (imread (Main.leftimg opts)) = 0 ->
  cols (imread (Main.leftimg opts)) = 0 ->
  is_unsigned (Main.numdisp opts) -> is_int (Main.mindisp opts) ->
  1 <= Main.blocksize opts <= INT_MAX ->
  Main.mindisp opts <= 0 <= Main.numdisp opts + Main.mindisp opts ->
  Main.numdisp opts + Main.blocksize opts < UINT_MAX ->
  Main.main score gt matchTemplate parse_program_options imread show_dispmap
            garbage argv
  = Main.EXIT_FAILURE.
Proof.
  intros Hparse Hr Hc Hn Hm Hb Hmd Hsum.
  unfold Main.main, Main.load_imgs. rewrite Hparse. cbn [fst snd].
  assert (Eb : to_int (Main.blocksize opts) = Main.blocksize opts).
  { apply to_int_id. unfold is_int, INT_MIN, INT_MAX in *. lia. }
  rewrite Eb.
  rewrite (empty_left_grid_fails gt matchTemplate _ _ _ _ _ garbage
             Hr Hc Hn Hm Hb Hmd Hsum).
  reflexivity.
Qed.

Lemma X14_witness :
  Main.main Q Exact.gt Exact.matchTemplate (parsed_as default_options)
            (only_file "right.png"%string (textured 6 8)) (fun _ => Ok tt) stale []
  = Main.EXIT_FAILURE.
Proof.
  apply (X14_unreadable_left_image_exits_with_failure
           Q Exact.gt Exact.matchTemplate (parsed_as default_options)
           (only_file "right.png"%string (textured 6 8)) (fun _ => Ok tt) stale []
           default_options).
  - reflexivity.
  - reflexivity.
  - reflexivity.
  - unfold is_unsigned. closed_facts.
  - unfold is_int. closed_facts.
  - closed_facts.
  - closed_facts.
  - vm_compute. reflexivity.
Defined.

(** X15: when the options parse with [mindisp <= 1] and
    [0 <= numdisp + mindisp], the left image has an eligible coordinate and
    the right image cannot be read, [main] returns [EXIT_FAILURE]: the
    first strip is asked of a matrix without rows and columns. *)
Theorem X15_unreadable_right_image_exits_with_failure
        (score : Type) (gt : score -> score -> bool)
        (matchTemplate : Mat Z -> Mat Z -> result (Mat score))
        (parse_program_options : list String.string -> Main.parse_result)
        (imread : String.string -> Mat Z)
        (show_dispmap : Mat Z -> result unit)
        (garbage : Z -> Z -> Z)
        (argv : list String.string) (opts : Main.program_options_t)
        (y0 x0 : Z) :
  parse_program_options argv = Main.Parsed opts ->
  grid_ok (imread (Main.leftimg opts)) ->
  rows (imread (Main.rightimg opts)) = 0 ->
  cols (imread (Main.rightimg opts)) = 0 ->
  is_unsigned (Main.numdisp opts) -> is_int (Main.mindisp opts) ->
  1 <= Main.blocksize opts <= INT_MAX ->
  0 <= Main.numdisp opts + Main.mindisp opts <= INT_MAX ->
  Main.mindisp opts <= 1 ->
  eligible (rows (imread (Main.leftimg opts)))
           (cols (imread (Main.leftimg opts)))
           (w (Main.blocksize opts))
           (Main.numdisp opts + Main.mindisp opts) (Main.mindisp opts)
           y0 x0 ->
  Main.main score gt matchTemplate parse_program_options imread show_dispmap
            garbage argv
  = Main.EXIT_FAILURE.
Proof.
  intros Hparse Hg Hr Hc Hn Hm Hb Hmax H1 He.
  unfold Main.main, Main.load_imgs. rewrite Hparse. cbn [fst snd].
  assert (Eb : to_int (Main.blocksize opts) = Main.blocksize opts).
  { apply to_int_id. unfold is_int, INT_MIN, INT_MAX in *. lia. }
  rewrite Eb.
  rewrite (small_right_grid_fails gt matchTemplate _ _ _ _ _ garbage y0 x0
             Hg Hn Hm Hb Hmax H1 He).
  - reflexivity.
  - left. rewrite Hr. destruct He as [Hy _].
    destruct (w_bounds (Main.blocksize opts) ltac:(lia)) as [Hw _]. lia.
Qed.

Lemma X15_witness :
  Main.main Q Exact.gt Exact.matchTemplate (parsed_as default_options)
            (only_file "left.png"%string (textured 30 100)) (fun _ => Ok tt) stale []
  = Main.EXIT_FAILURE.
Proof.
  apply (X15_unreadable_right_image_exits_with_failure
           Q Exact.gt Exact.matchTemplate (parsed_as default_options)
           (only_file "left.png"%string (textured 30 100)) (fun _ => Ok tt) stale []
           default_options 10 74).
  - reflexivity.
  - unfold grid_ok. closed_facts.
  - reflexivity.
  - reflexivity.
  - unfold is_unsigned. closed_facts.
  - unfold is_int. closed_facts.
  - closed_facts.
  - closed_facts.
  - vm_compute. discriminate.
  - closed_facts.
Defined.

(** X16: when the options parse, the two images and the options are in
    the wide regime and the scorer delivers a matrix of the documented
    size, the engine returns a map and the exit code of [main] is decided
    by the display alone: [EXIT_SUCCESS] if [show_dispmap] returns on that
    map, [EXIT_FAILURE] if it throws. *)
Theorem X16_exit_code_in_wide_regime
        (score : Type) (gt : score -> score -> bool)
        (matchTemplate : Mat Z -> Mat Z -> result (Mat score))
        (parse_program_options : list String.string -> Main.parse_result)
        (imread : String.string -> Mat Z)
        (show_dispmap : Mat Z -> result unit)
        (garbage : Z -> Z -> Z)
        (argv : list String.string) (opts : Main.program_options_t) :
  parse_program_options argv = Main.Parsed opts ->
  wide_regime (imread (Main.leftimg opts)) (imread (Main.rightimg opts))
              (Main.numdisp opts) (Main.mindisp opts) (Main.blocksize opts) ->
  matchTemplate_sized matchTemplate ->
  exists st,
    compute_dispmap gt matchTemplate
                    (imread (Main.leftimg opts)) (imread (Main.rightimg opts))
                    (Main.numdisp opts) (Main.mindisp opts)
                    (Main.blocksize opts) garbage = Ok st /\
    Main.main score gt matchTemplate parse_program_options imread show_dispmap
              garbage argv
    = match show_dispmap (dispmap st) with
      | Ok _ => Main.EXIT_SUCCESS
      | Err _ => Main.EXIT_FAILURE
      end.
Proof.
  intros Hparse Hreg Hmt.
  destruct (wide_regime_returns gt matchTemplate _ _ _ _ _ garbage Hreg Hmt)
    as [st Hst].
  exists st. split; [exact Hst|].
  unfold Main.main, Main.load_imgs. rewrite Hparse. cbn [fst snd].
  assert (Eb : to_int (Main.blocksize opts) = Main.blocksize opts).
  { destruct Hreg as (_ & _ & _ & _ & _ & Hb & _).
    apply to_int_id. unfold is_int, INT_MIN, INT_MAX in *. lia. }
  rewrite Eb, Hst. reflexivity.
Qed.

Lemma X16_witness :
  exists st,
    compute_dispmap Exact.gt Exact.matchTemplate
                    (any_file (textured 6 8) (Main.leftimg small_options))
                    (any_file (textured 6 8) (Main.rightimg small_options))
                    (Main.numdisp small_options) (Main.mindisp small_options)
                    (Main.blocksize small_options) stale = Ok st /\
    Main.main Q Exact.gt Exact.matchTemplate (parsed_as small_options)
              (any_file (textured 6 8)) no_display stale []
    = match no_display (dispmap st) with
      | Ok _ => Main.EXIT_SUCCESS
      | Err _ => Main.EXIT_FAILURE
      end.
Proof.
  apply (X16_exit_code_in_wide_regime
           Q Exact.gt Exact.matchTemplate (parsed_as small_options)
           (any_file (textured 6 8)) no_display stale [] small_options).
  - reflexivity.
  - unfold wide_regime, grid_ok, is_int, is_unsigned. closed_facts.
  - exact Exact_matchTemplate_sized.
Defined.
